(** * event_tracker/server.py: tracker state, scan merge, enrichment run, diff

    A shallow embedding of [src/event-tracker/src/event_tracker/server.py].

    - Python dicts are insertion-ordered; iteration order decides the order of
      the external search calls and of the serialised snapshot, so the two
      mappings of the tracker are association lists ([dict]), updated in place
      when the key is present and extended at the end otherwise.
    - Python sets (the diff of [get-changes]) are [gset string].
    - The handler is effectful: it mutates the tracker, appends to a local
      list, talks to the network, reads the clock and writes a file.  These
      are modelled by a state-and-exception monad [M] over [Env]; what the
      outside world answers is given by a [World] of oracles, and every
      external call is recorded in a chronological [trace]. *)

From Stdlib Require Import String Ascii List ZArith Lia.
From stdpp Require Import base strings list gmap pretty.

Open Scope string_scope.
Open Scope list_scope.

(** ** Insertion-ordered dictionaries with string keys *)

Definition dict (V : Type) : Type := list (string * V).

(** [d[k]] / [d.get(k)] *)
Fixpoint dict_get {V} (k : string) (d : dict V) : option V :=
  match d with
  | [] => None
  | (k', v) :: d' => if decide (k = k') then Some v else dict_get k d'
  end.

(** [k in d] *)
Definition dict_in {V} (k : string) (d : dict V) : bool :=
  match dict_get k d with Some _ => true | None => false end.

(** [d[k] = v]: an existing key keeps its position, a new key goes last. *)
Fixpoint dict_set {V} (k : string) (v : V) (d : dict V) : dict V :=
  match d with
  | [] => [(k, v)]
  | (k', v') :: d' =>
      if decide (k = k') then (k', v) :: d' else (k', v') :: dict_set k v d'
  end.

Definition dict_keys {V} (d : dict V) : list string := map fst d.
Definition dict_values {V} (d : dict V) : list V := map snd d.

(** ** Data model *)

(** A naive [datetime.datetime], as [datetime.now()] returns it. *)
Record datetime : Type := mk_datetime {
  year : nat; month : nat; day : nat;
  hour : nat; minute : nat; second : nat; microsecond : nat
}.

Fixpoint zeros (n : nat) : string :=
  match n with O => EmptyString | S n' => String "0" (zeros n') end.

(** ["%0{width}d" % n] *)
Definition pad (width n : nat) : string :=
  let s := pretty n in zeros (width - String.length s) +:+ s.

(** [str(d)], that is [d.isoformat(sep=' ')]: the fraction is printed only
    when it is not zero. *)
Definition str_datetime (d : datetime) : string :=
  pad 4 (year d) +:+ "-" +:+ pad 2 (month d) +:+ "-" +:+ pad 2 (day d) +:+ " " +:+
  pad 2 (hour d) +:+ ":" +:+ pad 2 (minute d) +:+ ":" +:+ pad 2 (second d) +:+
  (if decide (microsecond d = 0) then EmptyString else "." +:+ pad 6 (microsecond d)).

(** The fields [first_seen], [last_seen] and [last_check] hold a [datetime]
    when set by the running process and a [str] when they were read back from
    the JSON snapshot ([load_data] does not parse them). *)
Inductive stamp : Type :=
| Dt (d : datetime)
| Str (s : string).

Definition str_stamp (t : stamp) : string :=
  match t with Dt d => str_datetime d | Str s => s end.

Module Company.
Record t : Type := mk {
  name : string;
  website : string;
  type : string;       (* 'sponsor' or 'attendee' *)
  first_seen : stamp;
  last_seen : stamp
}.
(** [c.last_seen = now] *)
Definition set_last_seen (now : stamp) (c : t) : t :=
  mk (name c) (website c) (type c) (first_seen c) now.
End Company.

Module Contact.
Record t : Type := mk {
  name : string;
  title : string;
  company : string;
  email : string;
  apollo_id : string
}.
End Contact.

Record EventTracker : Type := mk_tracker {
  companies : dict Company.t;
  contacts : dict Contact.t;
  last_check : option stamp
}.

(** Truth value of [tracker.last_check]: [None] and the empty string are
    false, every [datetime] is true. *)
Definition truthy (lc : option stamp) : bool :=
  match lc with
  | None => false
  | Some (Dt _) => true
  | Some (Str s) => negb (bool_decide (s = EmptyString))
  end.

(** ** Exceptions *)

Inductive exn : Type :=
| ValueError (msg : string)
| KeyError (key : string)
| AttributeError (msg : string)
| TypeError (msg : string)
| UnboundLocalError (var : string)
| HTTPError (msg : string)
| OSError (msg : string).

(** [str(e)]; a [KeyError] prints the [repr] of its key. *)
Definition str_exn (e : exn) : string :=
  match e with
  | ValueError m | AttributeError m | TypeError m | HTTPError m | OSError m => m
  | KeyError k => "'" +:+ k +:+ "'"
  | UnboundLocalError v =>
      "cannot access local variable '" +:+ v +:+
      "' where it is not associated with a value"
  end.

Inductive outcome (A : Type) : Type :=
| Return (a : A)
| Raise (e : exn).
Arguments Return {A} a.
Arguments Raise {A} e.

(** ** JSON text of the snapshot: [json.dumps(data, default=str)] *)

Definition hex_digit (n : nat) : ascii :=
  match n with
  | 0 => "0" | 1 => "1" | 2 => "2" | 3 => "3" | 4 => "4" | 5 => "5" | 6 => "6"
  | 7 => "7" | 8 => "8" | 9 => "9" | 10 => "a" | 11 => "b" | 12 => "c"
  | 13 => "d" | 14 => "e" | _ => "f"
  end%char.

(** One character of a JSON string with [ensure_ascii=True].  A character of a
    string stands for the code point of the same number (0..255). *)
Definition json_escape_char (c : ascii) : string :=
  let n := nat_of_ascii c in
  let bs := String "092"%char EmptyString in
  if decide (n = 34) then bs +:+ String "034"%char EmptyString
  else if decide (n = 92) then bs +:+ bs
  else if decide (n = 8) then bs +:+ "b"
  else if decide (n = 12) then bs +:+ "f"
  else if decide (n = 10) then bs +:+ "n"
  else if decide (n = 13) then bs +:+ "r"
  else if decide (n = 9) then bs +:+ "t"
  else if decide (32 <= n <= 126) then String c EmptyString
  else bs +:+ "u00" +:+
       String (hex_digit (n / 16)) (String (hex_digit (n mod 16)) EmptyString).

Fixpoint json_escape (s : string) : string :=
  match s with
  | EmptyString => EmptyString
  | String c s' => json_escape_char c +:+ json_escape s'
  end.

Definition json_str (s : string) : string :=
  String "034"%char (json_escape s) +:+ String "034"%char EmptyString.

(** A JSON object from already rendered members, with the default separators. *)
Definition json_object (members : list (string * string)) : string :=
  "{" +:+ String.concat ", " (map (fun kv => json_str (fst kv) +:+ ": " +:+ snd kv) members)
      +:+ "}".

(** [default=str] turns a [datetime] into its [str]; a [str] is itself. *)
Definition json_stamp (t : stamp) : string := json_str (str_stamp t).

(** [v.__dict__] of a [Company], in field order. *)
Definition json_company (c : Company.t) : string :=
  json_object [("name", json_str (Company.name c));
               ("website", json_str (Company.website c));
               ("type", json_str (Company.type c));
               ("first_seen", json_stamp (Company.first_seen c));
               ("last_seen", json_stamp (Company.last_seen c))].

Definition json_contact (c : Contact.t) : string :=
  json_object [("name", json_str (Contact.name c));
               ("title", json_str (Contact.title c));
               ("company", json_str (Contact.company c));
               ("email", json_str (Contact.email c));
               ("apollo_id", json_str (Contact.apollo_id c))].

Definition json_dumps (t : EventTracker) : string :=
  json_object
    [("companies", json_object (map (fun kv => (fst kv, json_company (snd kv))) (companies t)));
     ("contacts", json_object (map (fun kv => (fst kv, json_contact (snd kv))) (contacts t)));
     ("last_check", match last_check t with
                    | None => "null"
                    | Some s => json_stamp s
                    end)].

(** ** The outside world *)

(** A person record of the search response: a JSON object. *)
Definition person : Type := dict string.

(** What extraction sees of one [.sponsor] / [.attendee] element:
    [select_one('.name')] (its text, if the element exists) and
    [select_one('a')] (its [href] attribute, if the anchor exists and has one). *)
Record element : Type := mk_element {
  el_name : option string;
  el_anchor : option (option string)
}.

(** The parsed page: [soup.select('.sponsor')] and [soup.select('.attendee')]. *)
Record page : Type := mk_page {
  sponsors : list element;
  attendees : list element
}.

(** Every external call, in the order the program performs it. *)
Inductive event : Type :=
| HttpGet (url : string)
| DatetimeNow
| SearchPeople (company_name : string) (seniority_levels : list string)
| Sleep (seconds : nat)
| SendLogMessage (level data : string)
| AddToSequence (sequence_id : string) (contact_ids : list string)
| WriteText (data : string).

(** Fate of one [Path.write_text]: [open(mode='w')] may fail before the file
    is touched; once it succeeded the file is truncated, and the write may
    still fail after some characters reached the file. *)
Inductive io_fault : Type :=
| NoFault
| OpenFails (msg : string)
| WriteFails (written : nat) (msg : string).

(** The answers of the environment.  Each oracle sees the history of external
    calls made so far, so two calls with the same arguments may differ. *)
Record World : Type := mk_world {
  page_response : list event -> string -> outcome page;
  clock : list event -> datetime;
  people_response : list event -> string -> list string -> outcome (list person);
  sequence_response : list event -> string -> list string -> outcome unit;
  write_fault : list event -> io_fault
}.

(** ** Program state and the handler monad *)

(** [tracker] is the module-level [EventTracker]; [storage] is the content of
    [event_data.json] ([None]: no such file); [new_contacts] is the local list
    of the running [enrich-contacts] call, which both of its loops append to. *)
Record Env : Type := mk_env {
  tracker : EventTracker;
  storage : option string;
  new_contacts : list Contact.t;
  trace : list event
}.

Definition set_tracker (t : EventTracker) (s : Env) : Env :=
  mk_env t (storage s) (new_contacts s) (trace s).
Definition set_storage (f : option string) (s : Env) : Env :=
  mk_env (tracker s) f (new_contacts s) (trace s).
Definition set_new_contacts (l : list Contact.t) (s : Env) : Env :=
  mk_env (tracker s) (storage s) l (trace s).
Definition record (e : event) (s : Env) : Env :=
  mk_env (tracker s) (storage s) (new_contacts s) (trace s ++ [e]).

(** An exception does not undo the mutations made before it. *)
Definition M (A : Type) : Type := Env -> outcome A * Env.

Definition ret {A} (a : A) : M A := fun s => (Return a, s).
Definition raise {A} (e : exn) : M A := fun s => (Raise e, s).
Definition bind {A B} (m : M A) (k : A -> M B) : M B :=
  fun s => match m s with
           | (Return a, s') => k a s'
           | (Raise e, s') => (Raise e, s')
           end.
(** [try: m except Exception as e: h e] *)
Definition try_except {A} (m : M A) (h : exn -> M A) : M A :=
  fun s => match m s with
           | (Return a, s') => (Return a, s')
           | (Raise e, s') => h e s'
           end.

Declare Scope py_scope.
Delimit Scope py_scope with py.
Notation "'let*' x := m 'in' k" := (bind m (fun x => k))
  (at level 10, x name, m at level 100, k at level 200) : py_scope.
Open Scope py_scope.

(** [for x in l: body x] *)
Fixpoint for_each {A} (l : list A) (body : A -> M unit) : M unit :=
  match l with
  | [] => ret tt
  | x :: l' => let* _ := body x in for_each l' body
  end.

(** [out = []; for x in l: out.append(f x)], with [out] local to the caller. *)
Fixpoint collect {A B} (l : list A) (f : A -> M B) : M (list B) :=
  match l with
  | [] => ret []
  | x :: l' => let* y := f x in let* ys := collect l' f in ret (y :: ys)
  end.

Definition get_tracker : M EventTracker := fun s => (Return (tracker s), s).
Definition modify_tracker (f : EventTracker -> EventTracker) : M unit :=
  fun s => (Return tt, set_tracker (f (tracker s)) s).
Definition get_new_contacts : M (list Contact.t) :=
  fun s => (Return (new_contacts s), s).

(** [d[k]] as an expression: [KeyError] when the key is missing. *)
Definition subscript {V} (d : dict V) (k : string) : M V :=
  match dict_get k d with
  | Some v => ret v
  | None => raise (KeyError k)
  end.

(** Reading a local variable of [handle_call_tool] that may be unbound. *)
Definition local {V} (var : string) (slot : option V) : M V :=
  match slot with
  | Some v => ret v
  | None => raise (UnboundLocalError var)
  end.

Record TextContent : Type := mk_text { text : string }.

(** [arguments: dict | None]; [not arguments] holds for [None] and for [{}]. *)
Definition not_arguments (arguments : option (dict string)) : bool :=
  match arguments with
  | None | Some [] => true
  | Some (_ :: _) => false
  end.

Definition arguments_dict (arguments : option (dict string)) : dict string :=
  match arguments with Some d => d | None => [] end.

(** ** The program *)

Section Program.

Variable w : World.

(** *** External calls *)

(** [await client.get(url)] followed by the parse of the response. *)
Definition http_get (url : string) : M page :=
  fun s => (page_response w (trace s) url, record (HttpGet url) s).

Definition datetime_now : M datetime :=
  fun s => (Return (clock w (trace s)), record DatetimeNow s).

(** [ApolloClient.search_people]: the POST, then [response.json()['people']];
    a transport error, a body that is not JSON and a missing ['people'] key
    all surface as an exception of the call. *)
Definition search_people (company_name : string) (seniority_levels : list string)
  : M (list person) :=
  fun s => (people_response w (trace s) company_name seniority_levels,
            record (SearchPeople company_name seniority_levels) s).

(** [ApolloClient.add_to_sequence]; the caller drops the returned JSON. *)
Definition add_to_sequence (sequence_id : string) (contact_ids : list string) : M unit :=
  fun s => (sequence_response w (trace s) sequence_id contact_ids,
            record (AddToSequence sequence_id contact_ids) s).

(** [await asyncio.sleep(seconds)] *)
Definition sleep (seconds : nat) : M unit :=
  fun s => (Return tt, record (Sleep seconds) s).

(** [session.send_log_message(level=..., data=...)] run to completion.  It
    is a coroutine function of the session: its body, which sends the log
    notification, runs only when the coroutine it returns is awaited. *)
Definition send_log_message (level data : string) : M unit :=
  fun s => (Return tt, record (SendLogMessage level data) s).

(** A call of a coroutine function whose result is not awaited, as in
    [session.send_log_message(...)] standing alone as a statement: the
    coroutine object is built and dropped, its body never runs, and none of
    its effects takes place. *)
Definition not_awaited {A} (coroutine : M A) : M unit := ret tt.

(** [self.storage_path.write_text(data)] *)
Definition write_text (data : string) : M unit :=
  fun s =>
    let s' := record (WriteText data) s in
    match write_fault w (trace s) with
    | NoFault => (Return tt, set_storage (Some data) s')
    | OpenFails msg => (Raise (OSError msg), s')
    | WriteFails written msg =>
        (Raise (OSError msg), set_storage (Some (String.substring 0 written data)) s')
    end.

(** *** [EventTracker.save_data] (lines 52-58) *)

Definition save_data : M unit :=
  let* t := get_tracker in
  let data := json_dumps t in
  write_text data.

(** *** [extract_companies] (lines 146-172) *)

(** [el.select_one('.name').text] *)
Definition name_text (el : element) : M string :=
  match el_name el with
  | Some s => ret s
  | None => raise (AttributeError "'NoneType' object has no attribute 'text'")
  end.

(** [el.select_one('a')['href']] *)
Definition anchor_href (el : element) : M string :=
  match el_anchor el with
  | None => raise (TypeError "'NoneType' object is not subscriptable")
  | Some None => raise (KeyError "href")
  | Some (Some h) => ret h
  end.

(** [Company(name=..., website=..., type=kind, first_seen=datetime.now(),
    last_seen=datetime.now())]: the arguments are evaluated left to right, so
    the clock is read twice per record. *)
Definition observe (kind : string) (el : element) : M Company.t :=
  let* name := name_text el in
  let* website := anchor_href el in
  let* first_seen := datetime_now in
  let* last_seen := datetime_now in
  ret (Company.mk name website kind (Dt first_seen) (Dt last_seen)).

Definition extract_companies (url : string) : M (list Company.t) :=
  let* soup := http_get url in
  let* from_sponsors := collect (sponsors soup) (observe "sponsor") in
  let* from_attendees := collect (attendees soup) (observe "attendee") in
  ret (from_sponsors ++ from_attendees).

(** *** [scan-event-website] (lines 179-203) *)

(** One round of the update loop (lines 189-192) on the company mapping. *)
Definition merge_company (now : datetime) (company : Company.t)
    (cs : dict Company.t) : dict Company.t :=
  match dict_get (Company.name company) cs with
  | Some tracked =>
      dict_set (Company.name company) (Company.set_last_seen (Dt now) tracked) cs
  | None => dict_set (Company.name company) company cs
  end.

(** The whole loop (lines 188-192). *)
Definition merge_companies (now : datetime) (observed : list Company.t)
    (cs : dict Company.t) : dict Company.t :=
  fold_left (fun cs company => merge_company now company cs) observed cs.

Definition scan_event_website (arguments : option (dict string)) : M (list TextContent) :=
  if not_arguments arguments || negb (dict_in "url" (arguments_dict arguments))
  then raise (ValueError "URL is required")
  else
    let* url := subscript (arguments_dict arguments) "url" in
    let* observed := extract_companies url in
    let* now := datetime_now in
    let* _ := modify_tracker (fun t =>
                mk_tracker (merge_companies now observed (companies t))
                           (contacts t) (last_check t)) in
    let* _ := modify_tracker (fun t =>
                mk_tracker (companies t) (contacts t) (Some (Dt now))) in
    let* _ := save_data in
    ret [mk_text ("Found " +:+ pretty (length observed) +:+ " companies: " +:+
                  String.concat ", " (map Company.name observed))].

(** *** [enrich-contacts] (lines 205-260) *)

(** [Contact(name=person['name'], title=person['title'], company=company.name,
    email=person['email'], apollo_id=person['id'])] *)
Definition make_contact (company : Company.t) (p : person) : M Contact.t :=
  let* name := subscript p "name" in
  let* title := subscript p "title" in
  let* email := subscript p "email" in
  let* id := subscript p "id" in
  ret (Contact.mk name title (Company.name company) email id).

(** Body of the inner loop (lines 221-229). *)
Definition merge_person (company : Company.t) (p : person) : M unit :=
  let* contact := make_contact company p in
  let* _ := modify_tracker (fun t =>
              mk_tracker (companies t)
                         (dict_set (Contact.apollo_id contact) contact (contacts t))
                         (last_check t)) in
  fun s => (Return tt, set_new_contacts (new_contacts s ++ [contact]) s).

Definition seniority : list string := ["director"; "executive"; "vp"].

(** Body of the outer loop (lines 214-238): the [try] covers the search, the
    inner loop and the sleep; the handler calls [send_log_message] without
    [await]. *)
Definition enrich_company (company : Company.t) : M unit :=
  try_except
    (let* people := search_people (Company.name company) seniority in
     let* _ := for_each people (merge_person company) in
     sleep 1)
    (fun e => not_awaited
                (send_log_message "error"
                   ("Error enriching " +:+ Company.name company +:+ ": " +:+ str_exn e))).

(** Lines 241-251. *)
Definition submit (sequence_id : string) : M unit :=
  let* batch := get_new_contacts in
  match batch with
  | [] => ret tt
  | _ :: _ =>
      try_except
        (add_to_sequence sequence_id (map Contact.apollo_id batch))
        (fun e => not_awaited
                    (send_log_message "error"
                       ("Error adding to sequence: " +:+ str_exn e)))
  end.

Definition enrich_contacts (arguments : option (dict string)) : M (list TextContent) :=
  if not_arguments arguments || negb (dict_in "sequence_id" (arguments_dict arguments))
  then raise (ValueError "Apollo.io sequence ID is required")
  else
    let* sequence_id := subscript (arguments_dict arguments) "sequence_id" in
    let* _ := (fun s => (Return tt, set_new_contacts [] s)) in
    let* t := get_tracker in
    let* _ := for_each (dict_values (companies t)) enrich_company in
    let* _ := submit sequence_id in
    let* _ := save_data in
    let* batch := get_new_contacts in
    ret [mk_text ("Added " +:+ pretty (length batch) +:+ " contacts to sequence")].

(** *** [get-changes] (lines 262-285) *)

Definition current_names (observed : list Company.t) : gset string :=
  list_to_set (map Company.name observed).

Definition previous_names (t : EventTracker) : gset string :=
  list_to_set (dict_keys (companies t)).

Definition new_companies (current previous : gset string) : gset string :=
  current ∖ previous.

Definition removed_companies (current previous : gset string) : gset string :=
  previous ∖ current.

Definition newline : string := String "010"%char EmptyString.

(** The text of lines 281-283.  Python does not fix the order in which a set
    is joined; [elements] stands for whichever order it takes. *)
Definition changes_text (since : option stamp) (added removed : gset string) : string :=
  "Changes since " +:+
  match since with Some t => str_stamp t | None => "None" end +:+ ":" +:+ newline +:+
  "New: " +:+ String.concat ", " (elements added) +:+ newline +:+
  "Removed: " +:+ String.concat ", " (elements removed).

(** [url] is the local variable slot of [handle_call_tool]; only the
    [scan-event-website] branch ever assigns it. *)
Definition get_changes (url : option string) : M (list TextContent) :=
  let* t := get_tracker in
  if negb (truthy (last_check t))
  then ret [mk_text "No previous scan to compare with"]
  else
    let* u := local "url" url in
    let* observed := extract_companies u in
    let current := current_names observed in
    let* t := get_tracker in
    let previous := previous_names t in
    ret [mk_text (changes_text (last_check t)
                    (new_companies current previous)
                    (removed_companies current previous))].

(** *** [handle_call_tool] (lines 174-288) *)

Definition handle_call_tool (name : string) (arguments : option (dict string))
  : M (list TextContent) :=
  if decide (name = "scan-event-website") then scan_event_website arguments
  else if decide (name = "enrich-contacts") then enrich_contacts arguments
  else if decide (name = "get-changes") then get_changes None
  else raise (ValueError ("Unknown tool: " +:+ name)).

End Program.

(** ** Pure readings of the enrichment loops

    What the loops of [enrich_contacts] compute, as functions of the answers
    of the world.  The lemmas below show that the monadic program computes
    exactly these. *)

(** [make_contact] without the monad: the four subscripts, in order. *)
Definition contact_of (company : Company.t) (p : person) : outcome Contact.t :=
  match dict_get "name" p with
  | None => Raise (KeyError "name")
  | Some name =>
    match dict_get "title" p with
    | None => Raise (KeyError "title")
    | Some title =>
      match dict_get "email" p with
      | None => Raise (KeyError "email")
      | Some email =>
        match dict_get "id" p with
        | None => Raise (KeyError "id")
        | Some id => Return (Contact.mk name title (Company.name company) email id)
        end
      end
    end
  end.

(** The contacts the inner loop builds before it ends or is interrupted. *)
Fixpoint merged (company : Company.t) (people : list person) : list Contact.t :=
  match people with
  | [] => []
  | p :: rest =>
      match contact_of company p with
      | Return c => c :: merged company rest
      | Raise _ => []
      end
  end.

(** The exception that interrupts the inner loop, if any. *)
Fixpoint stopped (company : Company.t) (people : list person) : option exn :=
  match people with
  | [] => None
  | p :: rest =>
      match contact_of company p with
      | Return _ => stopped company rest
      | Raise e => Some e
      end
  end.

(** [for c in l: d[c.apollo_id] = c] *)
Definition store_all (l : list Contact.t) (d : dict Contact.t) : dict Contact.t :=
  fold_left (fun d c => dict_set (Contact.apollo_id c) c d) l d.

(** One company, searched when the history is [h]. *)
Definition found (w : World) (h : list event) (company : Company.t) : list Contact.t :=
  match people_response w h (Company.name company) seniority with
  | Return people => merged company people
  | Raise _ => []
  end.

Definition failure (w : World) (h : list event) (company : Company.t) : option exn :=
  match people_response w h (Company.name company) seniority with
  | Return people => stopped company people
  | Raise e => Some e
  end.

(** The external calls of one visit: the search, and the sleep when nothing
    was raised. *)
Definition visit_events (w : World) (h : list event) (company : Company.t) : list event :=
  SearchPeople (Company.name company) seniority ::
  match failure w h company with
  | Some _ => []
  | None => [Sleep 1]
  end.

(** All companies, in iteration order, starting from history [h]. *)
Fixpoint run_found (w : World) (h : list event) (cs : list Company.t) : list Contact.t :=
  match cs with
  | [] => []
  | c :: cs' => found w h c ++ run_found w (h ++ visit_events w h c) cs'
  end.

Fixpoint run_events (w : World) (h : list event) (cs : list Company.t) : list event :=
  match cs with
  | [] => []
  | c :: cs' => visit_events w h c ++ run_events w (h ++ visit_events w h c) cs'
  end.

(** The external calls of [submit]. *)
Definition submit_events (sequence_id : string) (batch : list Contact.t) : list event :=
  match batch with
  | [] => []
  | _ :: _ => [AddToSequence sequence_id (map Contact.apollo_id batch)]
  end.

(** ** Observations on traces and results *)

(** The company names searched, in order. *)
Fixpoint searched (tr : list event) : list string :=
  match tr with
  | [] => []
  | SearchPeople n _ :: tr' => n :: searched tr'
  | _ :: tr' => searched tr'
  end.

(** The enrollment calls made, in order. *)
Fixpoint enrollments (tr : list event) : list (string * list string) :=
  match tr with
  | [] => []
  | AddToSequence sid ids :: tr' => (sid, ids) :: enrollments tr'
  | _ :: tr' => enrollments tr'
  end.

(** The log notifications sent, in order. *)
Fixpoint logged (tr : list event) : list (string * string) :=
  match tr with
  | [] => []
  | SendLogMessage level data :: tr' => (level, data) :: logged tr'
  | _ :: tr' => logged tr'
  end.

(** Every search call but the first is preceded by a sleep that comes after
    the search call before it.  [pending] tells that a search was made and no
    sleep has followed it yet. *)
Fixpoint rate_limited_from (pending : bool) (tr : list event) : bool :=
  match tr with
  | [] => true
  | SearchPeople _ _ :: tr' => negb pending && rate_limited_from true tr'
  | Sleep _ :: tr' => rate_limited_from false tr'
  | _ :: tr' => rate_limited_from pending tr'
  end.

Definition rate_limited (tr : list event) : bool := rate_limited_from false tr.

(** A search result record that carries the four fields of the contract. *)
Definition well_formed (p : person) : Prop :=
  is_Some (dict_get "name" p) ∧ is_Some (dict_get "title" p) ∧
  is_Some (dict_get "email" p) ∧ is_Some (dict_get "id" p).

(** The ids that are keys of the mapping after a run and were not before:
    the distinct newly merged contact ids, in the specification's words. *)
Definition newly_merged_ids (before after : dict Contact.t) : list string :=
  filter (fun k => negb (dict_in k before)) (remove_dups (dict_keys after)).

(** The state a handler call starts from when nothing was tracked yet. *)
Definition empty_tracker : EventTracker := mk_tracker [] [] None.

(** ** [handle_list_tools] (lines 104-144) *)

(** A [types.Tool]: its name, its description and, from the input schema, the
    declared properties (name and description; all are of type string) and
    the names that are required. *)
Record Tool : Type := mk_tool {
  tool_name : string;
  tool_description : string;
  tool_properties : list (string * string);
  tool_required : list string
}.

Definition handle_list_tools : list Tool :=
  [mk_tool "scan-event-website"
           "Scan a website for event sponsors and attendees"
           [("url", "Event website URL")]
           ["url"];
   mk_tool "enrich-contacts"
           "Find key decision makers at companies using Apollo.io"
           [("sequence_id", "Apollo.io sequence ID to add contacts to")]
           ["sequence_id"];
   mk_tool "get-changes"
           "Get changes in sponsors and attendees since last check"
           []
           []].

(** ** [EventTracker.__init__] and [load_data] (lines 34-50) *)

(** The keyword arguments [v] of a call [Company( **v )] or [Contact( **v )]:
    one record of the snapshot, a JSON object whose values are strings. *)
Definition kwargs : Type := dict string.

(** The parsed snapshot, [data]: each of the three members may be absent;
    ['last_check'] may be [null]. *)
Record snapshot : Type := mk_snapshot {
  snap_companies : option (dict kwargs);
  snap_contacts : option (dict kwargs);
  snap_last_check : option (option string)
}.

Definition company_fields : list string :=
  ["name"; "website"; "type"; "first_seen"; "last_seen"].
Definition contact_fields : list string :=
  ["name"; "title"; "company"; "email"; "apollo_id"].

Definition quoted (k : string) : string := "'" +:+ k +:+ "'".

(** The first keyword that the generated [__init__] of a dataclass refuses:
    [self] is already bound, any name that is not a field is unexpected. *)
Fixpoint refused_keyword (cls : string) (fields keywords : list string) : option exn :=
  match keywords with
  | [] => None
  | k :: rest =>
      if decide (k = "self")
      then Some (TypeError (cls +:+ ".__init__() got multiple values for argument 'self'"))
      else if decide (k ∈ fields) then refused_keyword cls fields rest
      else Some (TypeError (cls +:+ ".__init__() got an unexpected keyword argument " +:+
                            quoted k))
  end.

(** The fields that no keyword supplies, in field order. *)
Definition missing_fields (fields : list string) (v : kwargs) : list string :=
  filter (fun f => negb (dict_in f v)) fields.

(** How the interpreter lists missing arguments. *)
Definition listed_names (names : list string) : string :=
  match names with
  | [a] => quoted a
  | [a; b] => quoted a +:+ " and " +:+ quoted b
  | _ => String.concat ", " (map quoted (removelast names)) +:+ ", and " +:+
         quoted (List.last names EmptyString)
  end.

Definition missing_error (cls : string) (names : list string) : exn :=
  TypeError (cls +:+ ".__init__() missing " +:+ pretty (length names) +:+
             " required positional argument" +:+
             (if decide (length names = 1) then EmptyString else "s") +:+
             ": " +:+ listed_names names).

(** Binding the keywords [v] to the parameters of [cls.__init__]: keywords are matched
    first, then the parameters left without a value are reported. *)
Definition bind_keywords (cls : string) (fields : list string) (v : kwargs) : outcome unit :=
  match refused_keyword cls fields (dict_keys v) with
  | Some e => Raise e
  | None =>
      match missing_fields fields v with
      | [] => Return tt
      | names => Raise (missing_error cls names)
      end
  end.

(** The value bound to a field once [bind_keywords] has accepted the call. *)
Definition field (v : kwargs) (k : string) : string :=
  match dict_get k v with Some x => x | None => EmptyString end.

(** [Company( **v )]: the stamps come back as the strings of the file. *)
Definition Company_init (v : kwargs) : outcome Company.t :=
  match bind_keywords "Company" company_fields v with
  | Raise e => Raise e
  | Return _ =>
      Return (Company.mk (field v "name") (field v "website") (field v "type")
                         (Str (field v "first_seen")) (Str (field v "last_seen")))
  end.

(** [Contact( **v )] *)
Definition Contact_init (v : kwargs) : outcome Contact.t :=
  match bind_keywords "Contact" contact_fields v with
  | Raise e => Raise e
  | Return _ =>
      Return (Contact.mk (field v "name") (field v "title") (field v "company")
                         (field v "email") (field v "apollo_id"))
  end.

(** [{k: build( **v ) for k, v in items}], built into [acc]. *)
Fixpoint comprehension {A} (build : kwargs -> outcome A) (items : dict kwargs)
    (acc : dict A) : outcome (dict A) :=
  match items with
  | [] => Return acc
  | (k, v) :: rest =>
      match build v with
      | Raise e => Raise e
      | Return a => comprehension build rest (dict_set k a acc)
      end
  end.

Definition lift {A} (o : outcome A) : M A := fun s => (o, s).

Definition items_or_empty (member : option (dict kwargs)) : dict kwargs :=
  match member with Some d => d | None => [] end.

Section Loading.

(** [json.loads], with its result read as a [snapshot]; [Raise] is the
    [JSONDecodeError] of a text that is not JSON. *)
Variable json_loads : string -> outcome snapshot.

(** [load_data]: [storage s = None] is [self.storage_path.exists()] being
    false.  Each attribute is assigned when its right-hand side has been
    evaluated, so an exception keeps the assignments made before it. *)
Definition load_data : M unit :=
  fun s =>
    match storage s with
    | None => (Return tt, s)
    | Some text =>
        (let* data := lift (json_loads text) in
         let* cs := lift (comprehension Company_init (items_or_empty (snap_companies data)) []) in
         let* _ := modify_tracker (fun t => mk_tracker cs (contacts t) (last_check t)) in
         let* ct := lift (comprehension Contact_init (items_or_empty (snap_contacts data)) []) in
         let* _ := modify_tracker (fun t => mk_tracker (companies t) ct (last_check t)) in
         modify_tracker (fun t =>
           mk_tracker (companies t) (contacts t)
                      (match snap_last_check data with
                       | Some (Some text) => Some (Str text)
                       | _ => None
                       end))) s
    end.

(** [EventTracker.__init__], as run by [tracker = EventTracker(...)] when the
    module is loaded. *)
Definition EventTracker_init : M unit :=
  let* _ := modify_tracker (fun _ => empty_tracker) in
  load_data.

End Loading.

(** ** The snapshot as a tree *)

(** [v.__dict__] after [default=str] has been applied to the stamps. *)
Definition company_kwargs (c : Company.t) : kwargs :=
  [("name", Company.name c); ("website", Company.website c); ("type", Company.type c);
   ("first_seen", str_stamp (Company.first_seen c));
   ("last_seen", str_stamp (Company.last_seen c))].

Definition contact_kwargs (c : Contact.t) : kwargs :=
  [("name", Contact.name c); ("title", Contact.title c); ("company", Contact.company c);
   ("email", Contact.email c); ("apollo_id", Contact.apollo_id c)].

(** The object that [save_data] serialises. *)
Definition snapshot_of (t : EventTracker) : snapshot :=
  mk_snapshot
    (Some (map (fun kv => (fst kv, company_kwargs (snd kv))) (companies t)))
    (Some (map (fun kv => (fst kv, contact_kwargs (snd kv))) (contacts t)))
    (Some (match last_check t with Some x => Some (str_stamp x) | None => None end)).

Definition json_kwargs (v : kwargs) : string :=
  json_object (map (fun kv => (fst kv, json_str (snd kv))) v).

Definition json_records (d : dict kwargs) : string :=
  json_object (map (fun kv => (fst kv, json_kwargs (snd kv))) d).

(** The JSON text of a snapshot, members in the order companies, contacts,
    last_check. *)
Definition json_snapshot (d : snapshot) : string :=
  json_object
    (match snap_companies d with Some cs => [("companies", json_records cs)] | None => [] end ++
     match snap_contacts d with Some ct => [("contacts", json_records ct)] | None => [] end ++
     match snap_last_check d with
     | Some (Some text) => [("last_check", json_str text)]
     | Some None => [("last_check", "null")]
     | None => []
     end).

(** A tracker as it comes back from its own snapshot: every stamp is the
    string that was written for it. *)
Definition reloaded_company (c : Company.t) : Company.t :=
  Company.mk (Company.name c) (Company.website c) (Company.type c)
             (Str (str_stamp (Company.first_seen c)))
             (Str (str_stamp (Company.last_seen c))).

Definition reloaded (t : EventTracker) : EventTracker :=
  mk_tracker (map (fun kv => (fst kv, reloaded_company (snd kv))) (companies t))
             (contacts t)
             (match last_check t with Some x => Some (Str (str_stamp x)) | None => None end).

(** ** Invariants of the tracker *)

(** Keys are unique, every company stands under its name and every contact
    under its id. *)
Definition consistent (t : EventTracker) : Prop :=
  NoDup (dict_keys (companies t)) ∧
  NoDup (dict_keys (contacts t)) ∧
  Forall (fun kv => fst kv = Company.name (snd kv)) (companies t) ∧
  Forall (fun kv => fst kv = Contact.apollo_id (snd kv)) (contacts t).

(** The file holds the snapshot of the tracker in memory. *)
Definition in_sync (s : Env) : Prop := storage s = Some (json_dumps (tracker s)).

(** The names that a batch adds to a mapping with keys [known], in the order
    of their first occurrence. *)
Fixpoint fresh_names (known names : list string) : list string :=
  match names with
  | [] => []
  | n :: rest =>
      if decide (n ∈ known) then fresh_names known rest
      else n :: fresh_names (known ++ [n]) rest
  end.

(** ** Elements of the page *)

(** An element from which a company can be built. *)
Definition complete (el : element) : Prop :=
  is_Some (el_name el) ∧ ∃ href, el_anchor el = Some (Some href).

(** [c] is the company built from [el] as a [kind]. *)
Definition built_from (kind : string) (el : element) (c : Company.t) : Prop :=
  el_name el = Some (Company.name c) ∧
  el_anchor el = Some (Some (Company.website c)) ∧
  Company.type c = kind.

(** ** A concrete scenario

    One sponsor page, a clock that advances with every external call, a
    search that fails for Acme and returns three records (two of them with
    the same id) for anybody else, an enrollment endpoint that is down. *)

Definition at_tick (n : nat) : datetime := mk_datetime 2024 5 17 9 30 0 n.

Definition listing (name href : string) : element :=
  mk_element (Some name) (Some (Some href)).

Definition hit (id name : string) : person :=
  [("id", id); ("name", name); ("title", "CTO"); ("email", "info@example.org")].

Definition demo : World :=
  mk_world
    (fun _ _ => Return (mk_page [listing "Acme" "https://acme.example"] []))
    (fun h => at_tick (length h))
    (fun _ n _ => if decide (n = "Acme") then Raise (HTTPError "503 Service Unavailable")
                  else Return [hit "p1" "Ann"; hit "p2" "Bob"; hit "p2" "Bob"])
    (fun _ _ _ => Raise (HTTPError "sequence endpoint down"))
    (fun _ => NoFault).

(** The same world with a disk that fills up after one character. *)
Definition disk_full : World :=
  mk_world (page_response demo) (clock demo) (people_response demo)
           (sequence_response demo)
           (fun _ => WriteFails 1 "No space left on device").

Definition yesterday : stamp := Str "2024-05-16 08:00:00".

Definition acme : Company.t :=
  Company.mk "Acme" "https://acme.example" "sponsor" yesterday yesterday.
Definition bolt : Company.t :=
  Company.mk "Bolt" "https://bolt.example" "attendee" yesterday yesterday.
Definition ann : Contact.t := Contact.mk "Ann" "CTO" "Bolt" "ann@example.org" "p1".
Definition bob : Contact.t := Contact.mk "Bob" "CTO" "Bolt" "bob@example.org" "p2".

(** Nothing tracked, no snapshot file. *)
Definition fresh : Env := mk_env empty_tracker None [] [].

(** Two companies and one contact tracked, an older snapshot on disk. *)
Definition tracked : Env :=
  mk_env (mk_tracker [("Acme", acme); ("Bolt", bolt)] [("p1", ann)] (Some yesterday))
         (Some "{}") [] [].

(** As [tracked], with both contacts of the search already stored. *)
Definition enriched : Env :=
  mk_env (mk_tracker [("Acme", acme); ("Bolt", bolt)] [("p1", ann); ("p2", bob)]
                     (Some yesterday))
         (Some "{}") [] [].

Definition sequence_arguments : dict string := [("sequence_id", "seq-7")].

Definition scan_arguments : dict string := [("url", "https://event.example")].

(** A page whose second sponsor has no link. *)
Definition broken_page : page :=
  mk_page [listing "Acme" "https://acme.example"; mk_element (Some "Nolink") None] [].

Definition broken : World :=
  mk_world (fun _ _ => Return broken_page) (clock demo) (people_response demo)
           (sequence_response demo) (write_fault demo).

(** A world whose searches find nobody. *)
Definition silent : World :=
  mk_world (page_response demo) (clock demo) (fun _ _ _ => Return [])
           (sequence_response demo) (write_fault demo).

(** A search result whose second record has no email. *)
Definition patchy : World :=
  mk_world (page_response demo) (clock demo)
           (fun _ _ _ => Return [hit "p1" "Ann"; [("id", "p2"); ("name", "Bob"); ("title", "CTO")];
                                 hit "p3" "Cyd"])
           (sequence_response demo) (write_fault demo).

(** A parser of which one reading is known: the snapshot of [t]. *)
Definition reads_back (t : EventTracker) (text : string) : outcome snapshot :=
  if decide (text = json_dumps t) then Return (snapshot_of t)
  else Raise (ValueError "Expecting value").

(** A tracker with datetime stamps, as a scan leaves it. *)
Definition scanned : Env :=
  snd (handle_call_tool demo "scan-event-website" (Some scan_arguments) fresh).

(** Only Bolt tracked, no snapshot file. *)
Definition bolt_only : Env := set_tracker (mk_tracker [("Bolt", bolt)] [] None) fresh.

(** * Properties *)

(** ** Dictionaries *)

Section DictFacts.
Context {V : Type}.
Implicit Types (d : dict V) (k : string) (v : V).

Lemma dict_get_set_eq k v d : dict_get k (dict_set k v d) = Some v.
Proof.
  induction d as [|[k' v'] d IH]; simpl.
  - by rewrite decide_True.
  - destruct (decide (k = k')) as [->|Hne]; simpl.
    + by rewrite decide_True.
    + by rewrite decide_False.
Qed.

Lemma dict_get_set_ne k k' v d :
  k ≠ k' → dict_get k' (dict_set k v d) = dict_get k' d.
Proof.
  intros Hne. induction d as [|[k0 v0] d IH]; simpl.
  - rewrite decide_False; [done|congruence].
  - destruct (decide (k = k0)) as [->|Hk]; simpl.
    + rewrite !decide_False; [done|congruence..].
    + destruct (decide (k' = k0)); [done|apply IH].
Qed.

Lemma dict_get_set k k' v d :
  dict_get k' (dict_set k v d) = if decide (k = k') then Some v else dict_get k' d.
Proof.
  destruct (decide (k = k')) as [->|Hne];
    [apply dict_get_set_eq | by apply dict_get_set_ne].
Qed.

(** Assigning to a key that is present does not change the size. *)
Lemma dict_set_length_present k v d :
  is_Some (dict_get k d) → length (dict_set k v d) = length d.
Proof.
  induction d as [|[k' v'] d IH]; simpl; intros [x Hx]; [done|].
  destruct (decide (k = k')); simpl; [done|].
  f_equal. apply IH. eauto.
Qed.

Lemma dict_set_length_absent k v d :
  dict_get k d = None → length (dict_set k v d) = S (length d).
Proof.
  induction d as [|[k' v'] d IH]; simpl; intros Hx; [done|].
  destruct (decide (k = k')); simpl; [done|].
  f_equal. by apply IH.
Qed.

Lemma dict_set_keeps k k' v d :
  is_Some (dict_get k' d) → is_Some (dict_get k' (dict_set k v d)).
Proof.
  intros H. rewrite dict_get_set. destruct (decide (k = k')); eauto.
Qed.

Lemma dict_in_true k d : dict_in k d = true ↔ is_Some (dict_get k d).
Proof.
  unfold dict_in. destruct (dict_get k d); split; intros H; eauto.
  - discriminate.
  - by destruct H.
Qed.

Lemma dict_in_false k d : dict_in k d = false ↔ dict_get k d = None.
Proof. unfold dict_in. destruct (dict_get k d); split; intros H; done. Qed.

Lemma dict_get_keys k d : is_Some (dict_get k d) ↔ k ∈ dict_keys d.
Proof.
  unfold dict_keys. induction d as [|[k' v'] d IH]; simpl.
  - split; [by intros [? ?]|by intros ?%elem_of_nil].
  - rewrite elem_of_cons. destruct (decide (k = k')) as [->|Hne].
    + split; eauto.
    + rewrite IH. split; [by right|by intros [?|?]].
Qed.
End DictFacts.

(** ** The enrichment loops compute their pure readings *)

Lemma store_all_app l1 l2 d : store_all (l1 ++ l2) d = store_all l2 (store_all l1 d).
Proof. unfold store_all. apply fold_left_app. Qed.

Lemma make_contact_pure company p s :
  make_contact company p s = (contact_of company p, s).
Proof.
  unfold make_contact, contact_of, bind, subscript.
  destruct (dict_get "name" p); [|done].
  destruct (dict_get "title" p); [|done].
  destruct (dict_get "email" p); [|done].
  destruct (dict_get "id" p); done.
Qed.

(** The inner loop (lines 220-229). *)
Lemma merge_people_spec company people s :
  for_each people (merge_person company) s =
  (match stopped company people with Some e => Raise e | None => Return tt end,
   mk_env (mk_tracker (companies (tracker s))
                      (store_all (merged company people) (contacts (tracker s)))
                      (last_check (tracker s)))
          (storage s) (new_contacts s ++ merged company people) (trace s)).
Proof.
  revert s. induction people as [|p rest IH]; intros [[cs ct lc] st nc tr]; simpl.
  - by rewrite app_nil_r.
  - unfold bind at 1. unfold merge_person at 1. unfold bind at 1.
    rewrite make_contact_pure.
    destruct (contact_of company p) as [c|e]; simpl.
    + rewrite IH. simpl. by rewrite <- app_assoc.
    + by rewrite app_nil_r.
Qed.

(** One round of the outer loop (lines 213-238): it never raises. *)
Lemma enrich_company_spec w c s :
  enrich_company w c s =
  (Return tt,
   mk_env (mk_tracker (companies (tracker s))
                      (store_all (found w (trace s) c) (contacts (tracker s)))
                      (last_check (tracker s)))
          (storage s) (new_contacts s ++ found w (trace s) c)
          (trace s ++ visit_events w (trace s) c)).
Proof.
  destruct s as [[cs ct lc] st nc tr].
  unfold enrich_company, try_except, bind at 1, search_people at 1,
    found, failure, visit_events; simpl.
  unfold failure; simpl.
  destruct (people_response w tr (Company.name c) seniority) as [people|e]; simpl.
  - unfold bind. rewrite merge_people_spec. simpl.
    destruct (stopped c people) as [e|]; simpl;
      unfold not_awaited, ret, sleep, record; simpl; by rewrite <- ?app_assoc.
  - unfold not_awaited, ret, record; simpl. by rewrite app_nil_r.
Qed.

(** The outer loop over all tracked companies. *)
Lemma enrich_loop_spec w cs s :
  for_each cs (enrich_company w) s =
  (Return tt,
   mk_env (mk_tracker (companies (tracker s))
                      (store_all (run_found w (trace s) cs) (contacts (tracker s)))
                      (last_check (tracker s)))
          (storage s) (new_contacts s ++ run_found w (trace s) cs)
          (trace s ++ run_events w (trace s) cs)).
Proof.
  revert s. induction cs as [|c cs IH]; intros s; simpl.
  - destruct s as [[? ? ?] ? ? ?]; simpl. by rewrite !app_nil_r.
  - unfold bind at 1. rewrite enrich_company_spec, IH. simpl.
    by rewrite store_all_app, <- !app_assoc.
Qed.

Lemma submit_spec w sid s :
  submit w sid s =
  (Return tt,
   mk_env (tracker s) (storage s) (new_contacts s)
          (trace s ++ submit_events sid (new_contacts s))).
Proof.
  destruct s as [t st nc tr]. unfold submit, bind, get_new_contacts; simpl.
  destruct nc as [|c nc]; simpl.
  - unfold ret. by rewrite app_nil_r.
  - unfold try_except, add_to_sequence, not_awaited, ret, record; simpl.
    by destruct (sequence_response w tr sid _) as [[]|e].
Qed.

Lemma valid_arguments (key value : string) (args : dict string) :
  dict_get key args = Some value →
  not_arguments (Some args) || negb (dict_in key (arguments_dict (Some args))) = false.
Proof.
  intros H. simpl. unfold dict_in. rewrite H.
  destruct args; [discriminate|done].
Qed.

(** The whole [enrich-contacts] branch, for a call that carries a sequence id. *)
Lemma enrich_contacts_spec w args sid s :
  dict_get "sequence_id" args = Some sid →
  let cs := dict_values (companies (tracker s)) in
  let batch := run_found w (trace s) cs in
  let t' := mk_tracker (companies (tracker s))
                       (store_all batch (contacts (tracker s)))
                       (last_check (tracker s)) in
  let h1 := trace s ++ run_events w (trace s) cs in
  let h2 := h1 ++ submit_events sid batch in
  let data := json_dumps t' in
  enrich_contacts w (Some args) s =
  match write_fault w h2 with
  | NoFault =>
      (Return [mk_text ("Added " +:+ pretty (length batch) +:+ " contacts to sequence")],
       mk_env t' (Some data) batch (h2 ++ [WriteText data]))
  | OpenFails m =>
      (Raise (OSError m), mk_env t' (storage s) batch (h2 ++ [WriteText data]))
  | WriteFails k m =>
      (Raise (OSError m),
       mk_env t' (Some (String.substring 0 k data)) batch (h2 ++ [WriteText data]))
  end.
Proof.
  intros Hsid. cbv zeta.
  unfold enrich_contacts. rewrite (valid_arguments _ _ _ Hsid).
  unfold subscript; simpl arguments_dict; rewrite Hsid.
  destruct s as [[cs ct lc] st nc tr].
  unfold bind at 1; unfold ret at 1.
  unfold bind at 1; simpl.
  unfold bind at 1; unfold get_tracker at 1; simpl.
  unfold bind at 1. rewrite enrich_loop_spec; simpl.
  unfold bind at 1. rewrite submit_spec; simpl.
  unfold bind at 1. unfold save_data, bind at 1, get_tracker at 1, write_text; simpl.
  destruct (write_fault w _); simpl; done.
Qed.

(** ** Reading the trace of a run *)

Lemma searched_app tr1 tr2 : searched (tr1 ++ tr2) = searched tr1 ++ searched tr2.
Proof.
  induction tr1 as [|e tr1 IH]; simpl; [done|].
  destruct e; simpl; by rewrite ?IH.
Qed.

Lemma enrollments_app tr1 tr2 :
  enrollments (tr1 ++ tr2) = enrollments tr1 ++ enrollments tr2.
Proof.
  induction tr1 as [|e tr1 IH]; simpl; [done|].
  destruct e; simpl; by rewrite ?IH.
Qed.

Lemma visit_events_shape w h c :
  ∃ rest, visit_events w h c = SearchPeople (Company.name c) seniority :: rest ∧
          (rest = [] ∨ rest = [Sleep 1]) ∧
          rest = match failure w h c with Some _ => [] | None => [Sleep 1] end.
Proof.
  unfold visit_events. destruct (failure w h c); eexists; repeat split; eauto.
Qed.

Lemma logged_app tr1 tr2 : logged (tr1 ++ tr2) = logged tr1 ++ logged tr2.
Proof.
  induction tr1 as [|e tr1 IH]; simpl; [done|].
  destruct e; simpl; by rewrite ?IH.
Qed.

Lemma logged_run_events w h cs : logged (run_events w h cs) = [].
Proof.
  revert h. induction cs as [|c cs IH]; intros h; simpl; [done|].
  destruct (failure w h c); simpl; by rewrite IH.
Qed.

Lemma searched_run_events w h cs : searched (run_events w h cs) = map Company.name cs.
Proof.
  revert h. induction cs as [|c cs IH]; intros h; simpl; [done|].
  destruct (failure w h c); simpl; by rewrite IH.
Qed.

Lemma enrollments_run_events w h cs : enrollments (run_events w h cs) = [].
Proof.
  revert h. induction cs as [|c cs IH]; intros h; simpl; [done|].
  destruct (failure w h c); simpl; by rewrite IH.
Qed.

Lemma searched_submit_events sid batch : searched (submit_events sid batch) = [].
Proof. by destruct batch. Qed.

Lemma logged_submit_events sid batch : logged (submit_events sid batch) = [].
Proof. by destruct batch. Qed.

Lemma enrollments_submit_events sid batch :
  enrollments (submit_events sid batch) =
  match batch with [] => [] | _ :: _ => [(sid, map Contact.apollo_id batch)] end.
Proof. by destruct batch. Qed.

(** A search call found in the trace of the loop is the visit of one tracked
    company; a sleep follows it when the visit raised nothing, and what the
    visit built is part of the batch. *)
Lemma search_call_in_run w cs h0 tail before n lv after :
  searched tail = [] →
  run_events w h0 cs ++ tail = before ++ SearchPeople n lv :: after →
  ∃ c, c ∈ cs ∧ n = Company.name c ∧ lv = seniority ∧
       (failure w (h0 ++ before) c = None → ∃ after', after = Sleep 1 :: after') ∧
       (∀ x, x ∈ found w (h0 ++ before) c → x ∈ run_found w h0 cs).
Proof.
  intros Htail. revert h0 before.
  induction cs as [|c cs IH]; intros h0 before Heq.
  - simpl in Heq. rewrite Heq, searched_app in Htail. simpl in Htail.
    by destruct (searched before).
  - change (run_events w h0 (c :: cs)) with
      (visit_events w h0 c ++ run_events w (h0 ++ visit_events w h0 c) cs) in Heq.
    destruct (visit_events_shape w h0 c) as (rest & Hv & Hrest & Hfail).
    rewrite Hv in Heq. simpl in Heq.
    destruct before as [|b before]; simpl in Heq.
    + injection Heq as <- <- <-. exists c. rewrite app_nil_r.
      split; [apply elem_of_cons; by left|]. repeat split.
      * intros Hnone. rewrite Hnone in Hfail. subst rest. simpl. eauto.
      * intros y Hy. simpl. apply elem_of_app. by left.
    + injection Heq as <- Heq.
      assert (∃ before', before = rest ++ before' ∧
                run_events w (h0 ++ SearchPeople (Company.name c) seniority :: rest) cs ++ tail
                = before' ++ SearchPeople n lv :: after) as (before' & -> & Heq').
      { destruct Hrest as [->| ->]; [by exists before|].
        destruct before as [|b' before]; simpl in Heq; [discriminate|].
        injection Heq as <- Heq. by exists before. }
      destruct (IH (h0 ++ SearchPeople (Company.name c) seniority :: rest) before' Heq')
        as (c' & Hin & Hn & Hlv & Hafter & Hfound).
      exists c'.
      replace (h0 ++ SearchPeople (Company.name c) seniority :: rest ++ before')
        with ((h0 ++ SearchPeople (Company.name c) seniority :: rest) ++ before')
        by by rewrite <- app_assoc.
      split; [apply elem_of_cons; by right|]. repeat split; try done.
      intros y Hy. simpl. apply elem_of_app. right. rewrite Hv. by apply Hfound.
Qed.

(** Conversely, whatever is in the batch was built by the visit of a company
    whose search call is in the trace and returned. *)
Lemma batch_comes_from_a_search w cs h0 x :
  x ∈ run_found w h0 cs →
  ∃ c before after people,
    run_events w h0 cs = before ++ SearchPeople (Company.name c) seniority :: after ∧
    people_response w (h0 ++ before) (Company.name c) seniority = Return people ∧
    x ∈ merged c people.
Proof.
  revert h0. induction cs as [|c cs IH]; intros h0; simpl.
  - by intros ?%elem_of_nil.
  - intros [Hx|Hx]%elem_of_app.
    + unfold found in Hx.
      destruct (people_response w h0 (Company.name c) seniority) as [people|e] eqn:Hr;
        [|by apply elem_of_nil in Hx].
      exists c, [], (tail (visit_events w h0 c) ++ run_events w (h0 ++ visit_events w h0 c) cs), people.
      rewrite app_nil_r. by repeat split.
    + destruct (IH _ Hx) as (c' & before & after & people & Heq & Hr & Hm).
      exists c', (visit_events w h0 c ++ before), after, people.
      rewrite Heq, <- !app_assoc. rewrite <- app_assoc in Hr. by repeat split.
Qed.

Lemma merged_from_person c people x :
  x ∈ merged c people →
  ∃ p, p ∈ people ∧ dict_get "id" p = Some (Contact.apollo_id x).
Proof.
  induction people as [|p people IH]; simpl.
  - by intros ?%elem_of_nil.
  - destruct (contact_of c p) as [y|e] eqn:Hc; [|by intros ?%elem_of_nil].
    intros [->|Hx]%elem_of_cons.
    + exists p. split; [apply elem_of_cons; by left|].
      unfold contact_of in Hc.
      destruct (dict_get "name" p); [|done]. destruct (dict_get "title" p); [|done].
      destruct (dict_get "email" p); [|done]. destruct (dict_get "id" p); [|done].
      by injection Hc as <-.
    + destruct (IH Hx) as (q & Hq & Hid). exists q.
      split; [apply elem_of_cons; by right|done].
Qed.

Lemma merged_well_formed c people p i :
  Forall well_formed people → p ∈ people → dict_get "id" p = Some i →
  ∃ x, x ∈ merged c people ∧ Contact.apollo_id x = i.
Proof.
  induction 1 as [|q people Hq Hall IH]; [by intros ?%elem_of_nil|].
  intros Hp Hid. simpl.
  destruct Hq as ([n Hn] & [t Ht] & [e He] & [j Hj]).
  unfold contact_of. rewrite Hn, Ht, He, Hj.
  apply elem_of_cons in Hp as [->|Hp].
  - eexists. split; [apply elem_of_cons; by left|]. simpl. congruence.
  - destruct (IH Hp Hid) as (x & Hx & Hxi). exists x.
    split; [apply elem_of_cons; by right|done].
Qed.

(** A record is built when it and all records before it are complete. *)
Lemma merged_up_to c good p rest i :
  Forall well_formed good → well_formed p → dict_get "id" p = Some i →
  ∃ x, x ∈ merged c (good ++ p :: rest) ∧ Contact.apollo_id x = i.
Proof.
  intros Hgood ([n Hn] & [t Ht] & [e He] & [j Hj]) Hid.
  induction Hgood as [|q good Hq Hgood (x & Hx & Hxi)]; simpl.
  - unfold contact_of. rewrite Hn, Ht, He, Hj.
    eexists. split; [apply elem_of_cons; by left|]. simpl. congruence.
  - destruct Hq as ([n' Hn'] & [t' Ht'] & [e' He'] & [j' Hj']).
    unfold contact_of at 1. rewrite Hn', Ht', He', Hj'.
    exists x. split; [apply elem_of_cons; by right|done].
Qed.

(** ** Replaying the assignments to the contact mapping *)

Lemma store_all_keeps l d k :
  is_Some (dict_get k d) → is_Some (dict_get k (store_all l d)).
Proof.
  revert d. induction l as [|c l IH]; intros d H; simpl; [done|].
  apply IH. by apply dict_set_keeps.
Qed.

Lemma store_all_stores l d x :
  x ∈ l → is_Some (dict_get (Contact.apollo_id x) (store_all l d)).
Proof.
  revert d. induction l as [|c l IH]; intros d; simpl.
  - by intros ?%elem_of_nil.
  - intros [->|Hx]%elem_of_cons; [|by apply IH].
    apply store_all_keeps. rewrite dict_get_set_eq. eauto.
Qed.

Lemma store_all_length_present l d :
  (∀ x, x ∈ l → is_Some (dict_get (Contact.apollo_id x) d)) →
  length (store_all l d) = length d.
Proof.
  revert d. induction l as [|c l IH]; intros d H; simpl; [done|].
  rewrite IH.
  - apply dict_set_length_present, H, elem_of_cons. by left.
  - intros x Hx. apply dict_set_keeps, H, elem_of_cons. by right.
Qed.

(** A key of the mapping after the assignments was a key before or is the id
    of an assigned contact. *)
Lemma store_all_keys l d k :
  is_Some (dict_get k (store_all l d)) →
  is_Some (dict_get k d) ∨ k ∈ map Contact.apollo_id l.
Proof.
  revert d. induction l as [|c l IH]; intros d; simpl; [by left|].
  intros H. destruct (IH _ H) as [Hd|Hl].
  - rewrite dict_get_set in Hd. destruct (decide (Contact.apollo_id c = k)) as [<-|].
    + right. apply elem_of_cons. by left.
    + by left.
  - right. apply elem_of_cons. by right.
Qed.

(** ** Dispatch *)

Lemma handle_scan w arguments :
  handle_call_tool w "scan-event-website" arguments = scan_event_website w arguments.
Proof. reflexivity. Qed.

Lemma handle_enrich w arguments :
  handle_call_tool w "enrich-contacts" arguments = enrich_contacts w arguments.
Proof. reflexivity. Qed.

Lemma handle_changes w arguments :
  handle_call_tool w "get-changes" arguments = get_changes w None.
Proof. reflexivity. Qed.

(** ** [get-changes] *)

(** C1 (the code departs from the claim).  A [get-changes] call returns the
    text "No previous scan to compare with" and leaves the state alone when
    [last_check] is unset; when [last_check] is set it does not return a
    summary: line 271 reads the local [url], which no statement of this
    branch assigns, so the call raises [UnboundLocalError] before anything is
    fetched or compared. *)
Theorem get_changes_outcome w arguments s :
  handle_call_tool w "get-changes" arguments s =
  if truthy (last_check (tracker s))
  then (Raise (UnboundLocalError "url"), s)
  else (Return [mk_text "No previous scan to compare with"], s).
Proof.
  rewrite handle_changes. unfold get_changes, bind, get_tracker.
  by destruct (truthy (last_check (tracker s))).
Qed.

(** After the first successful scan every [get-changes] call raises. *)
Lemma get_changes_after_scan_raises :
  let scanned := snd (handle_call_tool demo "scan-event-website"
                        (Some [("url", "https://event.example")]) fresh) in
  fst (handle_call_tool demo "get-changes" None scanned) = Raise (UnboundLocalError "url").
Proof. vm_compute. reflexivity. Qed.

(** Had [url] been bound, lines 271-285 would report the two differences of
    the observed names and the tracked names. *)
Lemma get_changes_with_url w u s observed s1 :
  truthy (last_check (tracker s)) = true →
  extract_companies w u s = (Return observed, s1) →
  get_changes w (Some u) s =
  (Return [mk_text (changes_text (last_check (tracker s1))
             (new_companies (current_names observed) (previous_names (tracker s1)))
             (removed_companies (current_names observed) (previous_names (tracker s1))))],
   s1).
Proof.
  intros Ht He. unfold get_changes, bind at 1, get_tracker at 1. rewrite Ht. simpl.
  unfold bind at 1. simpl. unfold bind at 1. rewrite He.
  unfold bind, get_tracker, ret. done.
Qed.

(** C9.  For every set [A] of previously tracked names and every set [B] of
    currently observed names, the diff of lines 275-276 has added = B∖A and
    removed = A∖B, and the two are disjoint. *)
Theorem diff_is_set_difference (A B : gset string) :
  (∀ x, x ∈ new_companies B A ↔ x ∈ B ∧ x ∉ A) ∧
  (∀ x, x ∈ removed_companies B A ↔ x ∈ A ∧ x ∉ B) ∧
  new_companies B A = B ∖ A ∧
  removed_companies B A = A ∖ B ∧
  new_companies B A ∩ removed_companies B A = ∅.
Proof.
  unfold new_companies, removed_companies.
  split; [intros x; apply elem_of_difference|].
  split; [intros x; apply elem_of_difference|].
  split; [done|]. split; [done|].
  apply set_eq. intros x.
  rewrite elem_of_intersection, !elem_of_difference, elem_of_empty. tauto.
Qed.

(** The two sets in terms of the data they are built from: the observed
    records and the keys of the company mapping. *)
Lemma diff_membership (observed : list Company.t) (t : EventTracker) (x : string) :
  (x ∈ new_companies (current_names observed) (previous_names t) ↔
     (∃ c, c ∈ observed ∧ Company.name c = x) ∧ dict_get x (companies t) = None) ∧
  (x ∈ removed_companies (current_names observed) (previous_names t) ↔
     is_Some (dict_get x (companies t)) ∧ ¬ ∃ c, c ∈ observed ∧ Company.name c = x).
Proof.
  unfold new_companies, removed_companies, current_names, previous_names.
  rewrite !elem_of_difference, !elem_of_list_to_set, <- dict_get_keys, list_elem_of_fmap.
  rewrite <- not_eq_None_Some.
  destruct (dict_get x (companies t)) as [v|]; split; split.
  - intros [_ Hn]. by destruct Hn.
  - by intros [_ ?].
  - intros [_ Hn]. split; [done|]. intros (c & Hc & Hx). apply Hn. eauto.
  - intros [_ Hn]. split; [done|]. intros (c & Hx & Hc). apply Hn. eauto.
  - intros [(c & Hx & Hc) _]. split; [eauto|done].
  - intros [(c & Hc & Hx) _]. split; [eauto|]. by intros ?.
  - by intros [? _].
  - by intros [? _].
Qed.

(** The example of the specification: prior [{A, B}], scan [{B, C}]. *)
Example diff_example :
  new_companies {["B"; "C"]} {["A"; "B"]} = {["C"]} ∧
  removed_companies {["B"; "C"]} {["A"; "B"]} = {["A"]}.
Proof. by vm_compute. Qed.

(** ** [save_data] *)

(** C4 (as amended).  [save_data] serialises the whole tracker in memory and
    then writes the text over the snapshot file in place.  It never changes
    the tracker.  When it returns, the file holds exactly the serialisation of
    the tracker, whatever it held before.  When it raises, the file is either
    untouched (the open failed) or holds a prefix of the new serialisation:
    the write is a truncate-and-write, not an atomic replacement, so the
    prior snapshot does not survive a write that fails part-way. *)
Theorem save_overwrites_in_place w s :
  let r := save_data w s in
  tracker (snd r) = tracker s ∧
  match fst r with
  | Return _ => storage (snd r) = Some (json_dumps (tracker s))
  | Raise _ =>
      storage (snd r) = storage s ∨
      ∃ k, storage (snd r) = Some (String.substring 0 k (json_dumps (tracker s)))
  end.
Proof.
  unfold save_data, bind, get_tracker, write_text. simpl.
  destruct (write_fault w (trace s)); simpl; eauto.
Qed.

(** C4 as stated fails: with a disk that fills up after one character, the
    save raises and leaves neither the prior snapshot nor the new one. *)
Lemma save_can_leave_half_a_snapshot :
  let r := save_data disk_full tracked in
  fst r = Raise (OSError "No space left on device") ∧
  storage tracked = Some "{}" ∧
  storage (snd r) = Some "{" ∧
  storage (snd r) ≠ storage tracked ∧
  storage (snd r) ≠ Some (json_dumps (tracker tracked)).
Proof. vm_compute. repeat split; discriminate. Qed.

(** ** Frame of [enrich-contacts] *)

(** C10.  An [enrich-contacts] call leaves the company mapping and
    [last_check] exactly as they were, whatever the arguments and whatever
    the search, the enrollment and the snapshot write answer. *)
Theorem enrich_contacts_frame w arguments s :
  let s' := snd (handle_call_tool w "enrich-contacts" arguments s) in
  companies (tracker s') = companies (tracker s) ∧
  last_check (tracker s') = last_check (tracker s).
Proof.
  rewrite handle_enrich.
  destruct (dict_get "sequence_id" (arguments_dict arguments)) as [sid|] eqn:Hsid.
  - destruct arguments as [args|]; [|discriminate]. simpl in Hsid.
    rewrite (enrich_contacts_spec _ _ _ _ Hsid).
    by destruct (write_fault w _).
  - unfold enrich_contacts, dict_in. rewrite Hsid. simpl.
    by rewrite orb_true_r.
Qed.

(** ** The merge of [scan-event-website] *)

Lemma merge_company_get now c cs n :
  dict_get n (merge_company now c cs) =
  if decide (Company.name c = n)
  then Some (match dict_get n cs with
             | Some tracked => Company.set_last_seen (Dt now) tracked
             | None => c
             end)
  else dict_get n cs.
Proof.
  unfold merge_company.
  destruct (decide (Company.name c = n)) as [<-|Hne].
  - destruct (dict_get (Company.name c) cs); apply dict_get_set_eq.
  - destruct (dict_get (Company.name c) cs); by apply dict_get_set_ne.
Qed.

Lemma merge_companies_cons now c observed cs :
  merge_companies now (c :: observed) cs =
  merge_companies now observed (merge_company now c cs).
Proof. reflexivity. Qed.

Lemma set_last_seen_twice now c :
  Company.set_last_seen now (Company.set_last_seen now c) = Company.set_last_seen now c.
Proof. by destruct c. Qed.

(** An entry that is tracked keeps everything but [last_seen]. *)
Lemma merge_companies_tracked now observed cs n tracked :
  dict_get n cs = Some tracked →
  dict_get n (merge_companies now observed cs) =
  Some (if decide (n ∈ map Company.name observed)
        then Company.set_last_seen (Dt now) tracked
        else tracked).
Proof.
  revert cs tracked. induction observed as [|c observed IH]; intros cs tracked Hn.
  - change (merge_companies now [] cs) with cs. rewrite Hn.
    case_decide as Hin; [by apply elem_of_nil in Hin|done].
  - rewrite merge_companies_cons.
    pose proof (merge_company_get now c cs n) as Hstep. rewrite Hn in Hstep.
    change (map Company.name (c :: observed))
      with (Company.name c :: map Company.name observed).
    destruct (decide (Company.name c = n)) as [Hc|Hc].
    + rewrite (IH _ _ Hstep), set_last_seen_twice.
      rewrite (decide_True (P := n ∈ Company.name c :: map Company.name observed));
        [by case_decide|].
      apply elem_of_cons. by left.
    + rewrite (IH _ _ Hstep).
      destruct (decide (n ∈ map Company.name observed)) as [Hin|Hin].
      * rewrite decide_True; [done|]. apply elem_of_cons. by right.
      * rewrite decide_False; [done|]. intros [?|?]%elem_of_cons; congruence.
Qed.

Lemma merge_companies_unobserved now observed cs n :
  n ∉ map Company.name observed →
  dict_get n (merge_companies now observed cs) = dict_get n cs.
Proof.
  revert cs. induction observed as [|c observed IH]; intros cs Hn; [done|].
  change (map Company.name (c :: observed))
    with (Company.name c :: map Company.name observed) in Hn.
  rewrite merge_companies_cons, IH, merge_company_get.
  - rewrite decide_False; [done|]. intros Hc. apply Hn. apply elem_of_cons. by left.
  - intros Hin. apply Hn. apply elem_of_cons. by right.
Qed.

(** C7 (as amended).  The update loop of [scan-event-website] treats the entry
    of a name [n] as follows.  A tracked entry is left alone when [n] is not
    observed and otherwise only gets [last_seen = now]: name, website, type
    and [first_seen] stay.  An untracked name is inserted with the record of
    its first observation as extraction built it, stamps included (a later
    observation of the same name in the same batch sets [last_seen = now]).
    Hence no sequence of merges changes the [first_seen], website or type of a
    tracked entry. *)
Theorem merge_companies_entry now observed cs n :
  (∀ tracked, dict_get n cs = Some tracked →
     dict_get n (merge_companies now observed cs) =
     Some (if decide (n ∈ map Company.name observed)
           then Company.set_last_seen (Dt now) tracked
           else tracked)) ∧
  (∀ before c after,
     dict_get n cs = None →
     observed = before ++ c :: after →
     n ∉ map Company.name before → Company.name c = n →
     dict_get n (merge_companies now observed cs) =
     Some (if decide (n ∈ map Company.name after)
           then Company.set_last_seen (Dt now) c
           else c)) ∧
  (∀ tracked (rounds : list (datetime * list Company.t)),
     dict_get n cs = Some tracked →
     ∃ c, dict_get n (fold_left (fun cs r => merge_companies (fst r) (snd r) cs) rounds cs)
          = Some c ∧
          Company.first_seen c = Company.first_seen tracked ∧
          Company.website c = Company.website tracked ∧
          Company.type c = Company.type tracked ∧
          Company.name c = Company.name tracked).
Proof.
  split; [|split].
  - intros tracked. apply merge_companies_tracked.
  - intros before c after Hn -> Hbefore Hc.
    unfold merge_companies. rewrite fold_left_app. simpl.
    fold (merge_companies now before cs).
    fold (merge_companies now after (merge_company now c (merge_companies now before cs))).
    apply merge_companies_tracked.
    rewrite merge_company_get, decide_True by done.
    by rewrite merge_companies_unobserved, Hn.
  - intros tracked rounds. revert cs tracked.
    induction rounds as [|[now' obs] rounds IH]; intros cs tracked Hn; simpl.
    + exists tracked. by rewrite Hn.
    + pose proof (merge_companies_tracked now' obs cs n tracked Hn) as Hstep.
      destruct (IH _ _ Hstep) as (c & Hc & Hf & Hw & Ht & Hname).
      exists c. split; [done|].
      destruct (decide (n ∈ map Company.name obs)); by destruct tracked.
Qed.

(** The stamps of an observed record are the two clock readings taken while
    the record is built. *)
Lemma observe_stamps w kind el s c s1 :
  observe w kind el s = (Return c, s1) →
  Company.type c = kind ∧
  Company.first_seen c = Dt (clock w (trace s)) ∧
  Company.last_seen c = Dt (clock w (trace s ++ [DatetimeNow])) ∧
  tracker s1 = tracker s.
Proof.
  unfold observe, bind, name_text, anchor_href, datetime_now, ret, raise.
  destruct (el_name el); [|done].
  destruct (el_anchor el) as [[h|]|]; [|done..].
  simpl. by intros [= <- <-].
Qed.

(** What the handler does with the loop: the observed batch comes from
    [extract_companies], [now] is read from the clock after the extraction,
    and [last_check] becomes [now]. *)
Lemma scan_event_website_merges w args url s observed s1 :
  dict_get "url" args = Some url →
  extract_companies w url s = (Return observed, s1) →
  let now := clock w (trace s1) in
  tracker (snd (handle_call_tool w "scan-event-website" (Some args) s)) =
  mk_tracker (merge_companies now observed (companies (tracker s1)))
             (contacts (tracker s1)) (Some (Dt now)).
Proof.
  intros Hurl He. cbv zeta. rewrite handle_scan.
  unfold scan_event_website. rewrite (valid_arguments _ _ _ Hurl).
  unfold subscript; simpl arguments_dict; rewrite Hurl.
  unfold bind at 1; unfold ret at 1.
  unfold bind at 1. rewrite He.
  unfold bind at 1; unfold datetime_now at 1.
  unfold bind at 1; unfold modify_tracker at 1.
  unfold bind at 1; unfold modify_tracker at 1.
  unfold bind at 1. unfold save_data, bind at 1, get_tracker at 1, write_text. simpl.
  by destruct (write_fault w _).
Qed.

(** C7 as stated fails on the insertion: a company seen for the first time
    keeps the two stamps extraction gave it, which are earlier clock readings
    than [now], and differ from each other. *)
Lemma inserted_company_is_not_stamped_now :
  let s' := snd (handle_call_tool demo "scan-event-website"
                   (Some [("url", "https://event.example")]) fresh) in
  dict_get "Acme" (companies (tracker fresh)) = None ∧
  dict_get "Acme" (companies (tracker s')) =
    Some (Company.mk "Acme" "https://acme.example" "sponsor"
            (Dt (at_tick 1)) (Dt (at_tick 2))) ∧
  last_check (tracker s') = Some (Dt (at_tick 3)) ∧
  at_tick 1 ≠ at_tick 3 ∧ at_tick 2 ≠ at_tick 3 ∧ at_tick 1 ≠ at_tick 2.
Proof. vm_compute. repeat split; discriminate. Qed.

(** ** The [enrich-contacts] run *)

(** The trace of a run, cut at one of its search calls, is the visit of a
    tracked company. *)
Lemma search_call_of_run w sid cs h0 batch data before n lv after :
  ((h0 ++ run_events w h0 cs) ++ submit_events sid batch)
    ++ [WriteText data] = h0 ++ before ++ SearchPeople n lv :: after →
  ∃ c, c ∈ cs ∧ n = Company.name c ∧ lv = seniority ∧
       (failure w (h0 ++ before) c = None → ∃ after', after = Sleep 1 :: after') ∧
       (∀ x, x ∈ found w (h0 ++ before) c → x ∈ run_found w h0 cs).
Proof.
  rewrite <- !app_assoc. intros Heq%app_inv_head.
  eapply search_call_in_run; [|exact Heq].
  by rewrite searched_app, searched_submit_events.
Qed.

(** C5 (the code departs from the claim).  In an [enrich-contacts] call
    whose snapshot write succeeds, whatever the searches answer, the call
    returns its report and a search call is made for every tracked company,
    in order: a failed search does not end the loop and does not leave the
    operation as an exception.  But no log notification is sent at any point
    of the call, whether searches failed or not: the handler of lines 234-238
    calls [session.send_log_message] without awaiting it. *)
Theorem search_failure_is_isolated w args sid s :
  dict_get "sequence_id" args = Some sid →
  (∀ h, write_fault w h = NoFault) →
  let r := handle_call_tool w "enrich-contacts" (Some args) s in
  fst r = Return [mk_text ("Added " +:+ pretty (length (new_contacts (snd r))) +:+
                           " contacts to sequence")] ∧
  (∃ events, trace (snd r) = trace s ++ events ∧
             searched events = map Company.name (dict_values (companies (tracker s))) ∧
             logged events = []).
Proof.
  intros Hsid Hw. cbv zeta.
  rewrite handle_enrich, (enrich_contacts_spec _ _ _ _ Hsid), Hw. simpl.
  split; [done|].
  eexists. rewrite <- !app_assoc. split; [done|]. split.
  - by rewrite !searched_app, searched_run_events, searched_submit_events, app_nil_r.
  - by rewrite !logged_app, logged_run_events, logged_submit_events.
Qed.



Lemma newly_merged_ids_bound l d :
  (length (newly_merged_ids d (store_all l d)) ≤ length l)%nat.
Proof.
  rewrite <- (length_map Contact.apollo_id l).
  apply submseteq_length, NoDup_submseteq.
  - apply NoDup_filter, NoDup_remove_dups.
  - intros k [Hk Hin]%list_elem_of_filter.
    apply elem_of_remove_dups, dict_get_keys, store_all_keys in Hin as [Hd|Hl]; [|done].
    apply dict_in_true in Hd. by rewrite Hd in Hk.
Qed.

(** C2 (as amended).  In an [enrich-contacts] call whose snapshot write
    succeeds, the reported number is the length of the batch: one entry for
    every contact record the loop built from the search results, ids that
    were already in the mapping and ids returned more than once included.
    It is the number of ids passed to the enrollment call, and it is at least
    the number of distinct ids newly added to the mapping. *)
Theorem reported_count_is_batch_length w args sid s :
  dict_get "sequence_id" args = Some sid →
  (∀ h, write_fault w h = NoFault) →
  let r := handle_call_tool w "enrich-contacts" (Some args) s in
  let batch := run_found w (trace s) (dict_values (companies (tracker s))) in
  fst r = Return [mk_text ("Added " +:+ pretty (length batch) +:+ " contacts to sequence")] ∧
  new_contacts (snd r) = batch ∧
  (∃ events, trace (snd r) = trace s ++ events ∧
             enrollments events =
             match batch with [] => [] | _ :: _ => [(sid, map Contact.apollo_id batch)] end) ∧
  (length (newly_merged_ids (contacts (tracker s)) (contacts (tracker (snd r))))
   ≤ length batch)%nat.
Proof.
  intros Hsid Hw. cbv zeta.
  rewrite handle_enrich, (enrich_contacts_spec _ _ _ _ Hsid), Hw. simpl.
  split; [done|]. split; [done|]. split.
  - eexists. rewrite <- !app_assoc. split; [done|].
    rewrite !enrollments_app, enrollments_run_events, enrollments_submit_events. simpl.
    by rewrite app_nil_r.
  - apply newly_merged_ids_bound.
Qed.

(** C2 as stated fails: the search for Bolt returns p1, which is already in
    the mapping, and p2 twice; one id is newly merged and the report says 3. *)
Lemma reported_count_is_not_distinct_new_ids :
  let r := handle_call_tool demo "enrich-contacts" (Some sequence_arguments) tracked in
  fst r = Return [mk_text "Added 3 contacts to sequence"] ∧
  dict_keys (contacts (tracker tracked)) = ["p1"] ∧
  dict_keys (contacts (tracker (snd r))) = ["p1"; "p2"] ∧
  newly_merged_ids (contacts (tracker tracked)) (contacts (tracker (snd r))) = ["p2"].
Proof. vm_compute. repeat split; reflexivity. Qed.

(** After the assignments the record under an id is the last one assigned to
    it; an id that was not assigned keeps its record. *)
Lemma store_all_get l d i :
  dict_get i (store_all l d) =
  match last (filter (λ c, Contact.apollo_id c = i) l) with
  | Some c => Some c
  | None => dict_get i d
  end.
Proof.
  revert d. induction l as [|c l IH]; intros d; [done|].
  change (store_all (c :: l) d) with (store_all l (dict_set (Contact.apollo_id c) c d)).
  rewrite IH, filter_cons. case_decide as Hc.
  - rewrite last_cons. destruct (last _); [done|]. subst i. apply dict_get_set_eq.
  - destruct (last _); [done|]. by apply dict_get_set_ne.
Qed.

(** C8 (as amended).  After an [enrich-contacts] call: (1) for every search
    call of the run that returned, the id of a returned record is a key of the
    contact mapping whenever that record and all records before it in the
    same result carry name, title, email and id; (2) if every id returned by
    the search calls of the run was already a key before the call, the mapping
    has the same size after as before; (3) the mapping is the old one with the
    batch assigned to it in order, so under every id stands the last record
    built for it, and ids that were not built keep their record. *)
Theorem enrich_stores_every_returned_id w args sid s :
  dict_get "sequence_id" args = Some sid →
  let s' := snd (handle_call_tool w "enrich-contacts" (Some args) s) in
  (∀ before n lv after good p rest i,
     trace s' = trace s ++ before ++ SearchPeople n lv :: after →
     people_response w (trace s ++ before) n lv = Return (good ++ p :: rest) →
     Forall well_formed good → well_formed p →
     dict_get "id" p = Some i →
     is_Some (dict_get i (contacts (tracker s')))) ∧
  ((∀ before n lv after people p i,
      trace s' = trace s ++ before ++ SearchPeople n lv :: after →
      people_response w (trace s ++ before) n lv = Return people →
      p ∈ people → dict_get "id" p = Some i →
      is_Some (dict_get i (contacts (tracker s)))) →
   length (contacts (tracker s')) = length (contacts (tracker s))) ∧
  (∀ i, dict_get i (contacts (tracker s')) =
        match last (filter (λ c, Contact.apollo_id c = i) (new_contacts s')) with
        | Some c => Some c
        | None => dict_get i (contacts (tracker s))
        end).
Proof.
  intros Hsid. cbv zeta. rewrite handle_enrich.
  pose proof (enrich_contacts_spec w args sid s Hsid) as Hspec. cbv zeta in Hspec.
  set (cs := dict_values (companies (tracker s))) in *.
  set (batch := run_found w (trace s) cs) in *.
  set (h := trace s ++ run_events w (trace s) cs) in *.
  assert (Hs' : contacts (tracker (snd (enrich_contacts w (Some args) s))) =
                store_all batch (contacts (tracker s)) ∧
                new_contacts (snd (enrich_contacts w (Some args) s)) = batch ∧
                ∃ data, trace (snd (enrich_contacts w (Some args) s)) =
                        (h ++ submit_events sid batch) ++ [WriteText data]).
  { rewrite Hspec. destruct (write_fault w _); simpl; eauto. }
  destruct Hs' as (Hct & Hb & data & Htr). rewrite Hct, Hb, Htr.
  split; [|split].
  - intros before n lv after good p rest i Heq Hr Hgood Hp Hid.
    destruct (search_call_of_run _ _ _ _ _ _ _ _ _ _ Heq)
      as (c & _ & -> & -> & _ & Hfound).
    destruct (merged_up_to c good p rest i Hgood Hp Hid) as (x & Hx & <-).
    apply store_all_stores, Hfound. unfold found. by rewrite Hr.
  - intros Hknown. apply store_all_length_present. intros x Hx.
    destruct (batch_comes_from_a_search _ _ _ _ Hx)
      as (c & before & after & people & Hev & Hr & Hm).
    destruct (merged_from_person _ _ _ Hm) as (p & Hp & Hid).
    eapply (Hknown before _ _ _ people p); [|exact Hr|exact Hp|exact Hid].
    subst h. rewrite Hev, <- !app_assoc. simpl. reflexivity.
  - intros i. apply store_all_get.
Qed.

(** C8 as stated fails: the search for Bolt returns p1, a record without
    email, and p3; the call returns, the loop for Bolt stops at the second
    record, and p3, an id of that search result, is not in the mapping. *)
Lemma id_after_an_incomplete_record_is_not_stored :
  let r := handle_call_tool patchy "enrich-contacts" (Some sequence_arguments) bolt_only in
  people_response patchy (trace bolt_only) "Bolt" seniority =
    Return [hit "p1" "Ann"; [("id", "p2"); ("name", "Bob"); ("title", "CTO")];
            hit "p3" "Cyd"] ∧
  fst r = Return [mk_text "Added 1 contacts to sequence"] ∧
  searched (trace (snd r)) = ["Bolt"] ∧
  dict_get "id" (hit "p3" "Cyd") = Some "p3" ∧
  dict_get "p3" (contacts (tracker (snd r))) = None ∧
  dict_keys (contacts (tracker (snd r))) = ["p1"].
Proof. vm_compute. repeat split; reflexivity. Qed.

(** ** The delay between search calls *)

(** A visit whose search call raises performs no sleep: the [await
    asyncio.sleep(1)] of line 232 stands inside the [try], after the inner
    loop, and the exception skips it. *)
Lemma failed_search_skips_the_sleep w c s e :
  people_response w (trace s) (Company.name c) seniority = Raise e →
  trace (snd (enrich_company w c s)) =
  trace s ++ [SearchPeople (Company.name c) seniority].
Proof.
  intros Hr. rewrite enrich_company_spec. simpl.
  unfold visit_events, failure. by rewrite Hr.
Qed.

(** A visit that completes sleeps once, after its search call. *)
Lemma completed_visit_sleeps w c s :
  failure w (trace s) c = None →
  trace (snd (enrich_company w c s)) =
  trace s ++ [SearchPeople (Company.name c) seniority; Sleep 1].
Proof.
  intros Hr. rewrite enrich_company_spec. simpl.
  unfold visit_events. by rewrite Hr.
Qed.

(** When no visit fails, the search calls of the loop are spaced by sleeps. *)
Lemma searches_spaced_when_none_fails w cs h :
  (∀ h c, failure w h c = None) →
  rate_limited (run_events w h cs) = true.
Proof.
  intros Hok. unfold rate_limited. revert h.
  induction cs as [|c cs IH]; intros h; [done|].
  simpl. rewrite Hok. simpl. apply IH.
Qed.

(** C3 (the code departs from the claim).  With Acme and Bolt tracked and the
    search for Acme failing, the run goes straight from the search for Acme to
    the search for Bolt: no sleep separates the two search calls. *)
Theorem no_delay_after_a_failed_search :
  let s' := snd (handle_call_tool demo "enrich-contacts" (Some sequence_arguments) tracked) in
  take 3 (trace s') =
    [SearchPeople "Acme" ["director"; "executive"; "vp"];
     SearchPeople "Bolt" ["director"; "executive"; "vp"];
     Sleep 1] ∧
  rate_limited (trace s') = false.
Proof. vm_compute. split; reflexivity. Qed.

(** ** The statements at the concrete scenario *)

(** The report of C2 in the scenario: three records built, three reported. *)
Lemma reported_count_is_batch_length_witness :
  let r := handle_call_tool demo "enrich-contacts" (Some sequence_arguments) tracked in
  fst r = Return [mk_text "Added 3 contacts to sequence"] ∧
  map Contact.apollo_id (new_contacts (snd r)) = ["p1"; "p2"; "p2"].
Proof.
  destruct (reported_count_is_batch_length demo sequence_arguments "seq-7" tracked)
    as (Htext & Hbatch & _); [reflexivity | intros h; reflexivity |].
  split; [exact Htext | rewrite Hbatch; reflexivity].
Defined.

(** C5 in the scenario: the search for Acme fails, Bolt is searched all the
    same and the call returns its report; nothing is logged. *)
Lemma search_failure_is_isolated_witness :
  let r := handle_call_tool demo "enrich-contacts" (Some sequence_arguments) tracked in
  people_response demo (trace tracked) "Acme" seniority =
    Raise (HTTPError "503 Service Unavailable") ∧
  fst r = Return [mk_text ("Added " +:+ pretty (length (new_contacts (snd r))) +:+
                           " contacts to sequence")] ∧
  ∃ events, trace (snd r) = trace tracked ++ events ∧
            searched events = ["Acme"; "Bolt"] ∧
            logged events = [].
Proof.
  destruct (search_failure_is_isolated demo sequence_arguments "seq-7" tracked)
    as (Htext & Hevents); [reflexivity | intros h; reflexivity |].
  split; [reflexivity|]. split; [exact Htext | exact Hevents].
Defined.


(** C8 in the scenario: p2, returned for Bolt after the complete record p1,
    is stored; a run from a state that already holds p1 and p2 leaves the
    mapping at two entries. *)
Lemma enrich_stores_every_returned_id_witness :
  is_Some (dict_get "p2" (contacts (tracker (snd
    (handle_call_tool demo "enrich-contacts" (Some sequence_arguments) tracked))))) ∧
  length (contacts (tracker (snd
    (handle_call_tool demo "enrich-contacts" (Some sequence_arguments) enriched)))) =
  length (contacts (tracker enriched)).
Proof.
  split.
  - destruct (enrich_stores_every_returned_id demo sequence_arguments "seq-7" tracked eq_refl)
      as (Hstored & _).
    apply (Hstored
             [SearchPeople "Acme" seniority]
             "Bolt" seniority
             (drop 2 (trace (snd (handle_call_tool demo "enrich-contacts"
                                    (Some sequence_arguments) tracked))))
             [hit "p1" "Ann"] (hit "p2" "Bob") [hit "p2" "Bob"]).
    + vm_compute. reflexivity.
    + reflexivity.
    + repeat constructor; vm_compute; eauto.
    + repeat split; vm_compute; eauto.
    + reflexivity.
  - destruct (enrich_stores_every_returned_id demo sequence_arguments "seq-7" enriched eq_refl)
      as (_ & Hsize & _).
    apply Hsize. intros before n lv after people p i _ Hr Hp Hid.
    simpl in Hr. destruct (decide (n = "Acme")); [discriminate|].
    injection Hr as <-.
    repeat (apply elem_of_cons in Hp as [->|Hp]);
      [injection Hid as <-; vm_compute; eauto ..|by apply elem_of_nil in Hp].
Defined.

(** C7 in the scenario: Acme, tracked since yesterday, is observed again with
    another website and type; only its [last_seen] moves. *)
Lemma merge_companies_entry_witness :
  dict_get "Acme" (merge_companies (at_tick 9)
                     [Company.mk "Acme" "https://acme.example/new" "attendee"
                                 (Dt (at_tick 7)) (Dt (at_tick 8))]
                     (companies (tracker tracked))) =
  Some (Company.mk "Acme" "https://acme.example" "sponsor" yesterday (Dt (at_tick 9))).
Proof.
  destruct (merge_companies_entry (at_tick 9)
              [Company.mk "Acme" "https://acme.example/new" "attendee"
                          (Dt (at_tick 7)) (Dt (at_tick 8))]
              (companies (tracker tracked)) "Acme") as (Htracked & _).
  rewrite (Htracked acme eq_refl). reflexivity.
Defined.

(** * Further properties of the code *)

(** ** More on dictionaries *)

Lemma dict_keys_set {V} (k : string) (v : V) (d : dict V) :
  dict_keys (dict_set k v d) =
  if decide (k ∈ dict_keys d) then dict_keys d else dict_keys d ++ [k].
Proof.
  unfold dict_keys. induction d as [|[k' v'] d IH].
  - rewrite decide_False; [done|]. by intros ?%elem_of_nil.
  - change (map fst ((k', v') :: d)) with (k' :: map fst d).
    change (dict_set k v ((k', v') :: d))
      with (if decide (k = k') then (k', v) :: d else (k', v') :: dict_set k v d).
    destruct (decide (k = k')) as [->|Hne].
    + rewrite decide_True; [done|]. apply elem_of_cons. by left.
    + change (map fst ((k', v') :: dict_set k v d)) with (k' :: map fst (dict_set k v d)).
      rewrite IH. destruct (decide (k ∈ map fst d)) as [Hin|Hin].
      * rewrite decide_True; [done|]. apply elem_of_cons. by right.
      * rewrite decide_False; [done|]. intros [?|?]%elem_of_cons; congruence.
Qed.

Lemma dict_set_NoDup {V} (k : string) (v : V) (d : dict V) :
  NoDup (dict_keys d) → NoDup (dict_keys (dict_set k v d)).
Proof.
  intros Hd. rewrite dict_keys_set. case_decide as Hin; [done|].
  apply NoDup_app. split; [done|]. split.
  - intros x Hx [->|[]%elem_of_nil]%elem_of_cons. done.
  - apply NoDup_singleton.
Qed.

(** An assignment keeps every entry that was there, at its place, and what it
    adds goes to the end. *)
Lemma dict_set_keys_prefix {V} (k : string) (v : V) (d : dict V) :
  dict_keys d `prefix_of` dict_keys (dict_set k v d).
Proof.
  rewrite dict_keys_set. case_decide; [done|]. by apply prefix_app_r.
Qed.

Lemma dict_set_Forall {V} (P : string * V → Prop) (k : string) (v : V) (d : dict V) :
  (∀ k', k' ∈ dict_keys d → k' = k → P (k', v)) → P (k, v) →
  Forall P d → Forall P (dict_set k v d).
Proof.
  intros Hin Hnew Hd. induction Hd as [|[k' v'] d Hkv Hd IH]; simpl.
  - by repeat constructor.
  - destruct (decide (k = k')) as [->|Hne].
    + constructor; [|done]. apply Hin; [|done]. apply elem_of_cons. by left.
    + constructor; [done|]. apply IH. intros k0 Hk0. apply Hin.
      apply elem_of_cons. by right.
Qed.

Lemma dict_get_Forall {V} (P : string * V → Prop) (k : string) (v : V) (d : dict V) :
  Forall P d → dict_get k d = Some v → P (k, v).
Proof.
  induction 1 as [|[k' v'] d Hkv Hd IH]; simpl; [done|].
  destruct (decide (k = k')) as [->|Hne]; [by intros [= <-]|done].
Qed.

(** ** Extraction *)

Lemma observe_frame w kind el s o s1 :
  observe w kind el s = (o, s1) →
  tracker s1 = tracker s ∧ storage s1 = storage s ∧ new_contacts s1 = new_contacts s.
Proof.
  unfold observe, bind, name_text, anchor_href, datetime_now, ret, raise.
  destruct (el_name el); [|by intros [= <- <-]].
  destruct (el_anchor el) as [[h|]|]; by intros [= <- <-].
Qed.

Lemma collect_observe_frame w kind els s o s1 :
  collect els (observe w kind) s = (o, s1) →
  tracker s1 = tracker s ∧ storage s1 = storage s ∧ new_contacts s1 = new_contacts s.
Proof.
  revert s o s1. induction els as [|el els IH]; intros s o s1.
  - by intros [= <- <-].
  - simpl. unfold bind at 1.
    destruct (observe w kind el s) as [[c|e] s2] eqn:Ho;
      apply observe_frame in Ho as (Ht & Hs & Hn).
    + unfold bind at 1.
      destruct (collect els (observe w kind) s2) as [[cs|e] s3] eqn:Hc;
        apply IH in Hc as (Ht' & Hs' & Hn'); intros [= <- <-]; simpl; by rewrite Ht', Hs', Hn'.
    + by intros [= <- <-].
Qed.

(** Extraction reads the page and the clock and touches nothing else. *)
Lemma extract_companies_frame w url s o s1 :
  extract_companies w url s = (o, s1) →
  tracker s1 = tracker s ∧ storage s1 = storage s ∧ new_contacts s1 = new_contacts s.
Proof.
  unfold extract_companies, bind at 1, http_get.
  destruct (page_response w (trace s) url) as [soup|e]; simpl; [|by intros [= <- <-]].
  unfold bind at 1.
  destruct (collect (sponsors soup) (observe w "sponsor") _) as [[cs|e] s2] eqn:H1;
    apply collect_observe_frame in H1 as (Ht & Hs & Hn); simpl in *;
    [|by intros [= <- <-]].
  unfold bind at 1.
  destruct (collect (attendees soup) (observe w "attendee") s2) as [[cs'|e] s3] eqn:H2;
    apply collect_observe_frame in H2 as (Ht' & Hs' & Hn');
    intros [= <- <-]; simpl; by rewrite Ht', Hs', Hn'.
Qed.

(** The whole [scan-event-website] branch, by the outcome of extraction. *)
Lemma scan_event_website_spec w args url s :
  dict_get "url" args = Some url →
  scan_event_website w (Some args) s =
  match extract_companies w url s with
  | (Raise e, s1) => (Raise e, s1)
  | (Return observed, s1) =>
      let now := clock w (trace s1) in
      let t' := mk_tracker (merge_companies now observed (companies (tracker s1)))
                           (contacts (tracker s1)) (Some (Dt now)) in
      let h := trace s1 ++ [DatetimeNow] in
      let data := json_dumps t' in
      let report := [mk_text ("Found " +:+ pretty (length observed) +:+ " companies: " +:+
                              String.concat ", " (map Company.name observed))] in
      match write_fault w h with
      | NoFault =>
          (Return report, mk_env t' (Some data) (new_contacts s1) (h ++ [WriteText data]))
      | OpenFails m =>
          (Raise (OSError m), mk_env t' (storage s1) (new_contacts s1) (h ++ [WriteText data]))
      | WriteFails k m =>
          (Raise (OSError m),
           mk_env t' (Some (String.substring 0 k data)) (new_contacts s1)
                  (h ++ [WriteText data]))
      end
  end.
Proof.
  intros Hurl. unfold scan_event_website. rewrite (valid_arguments _ _ _ Hurl).
  unfold subscript; simpl arguments_dict; rewrite Hurl.
  unfold bind at 1; unfold ret at 1.
  unfold bind at 1.
  destruct (extract_companies w url s) as [[observed|e] s1]; [|done].
  unfold bind at 1; unfold datetime_now at 1.
  unfold bind at 1; unfold modify_tracker at 1.
  unfold bind at 1; unfold modify_tracker at 1.
  unfold bind at 1. unfold save_data, bind at 1, get_tracker at 1, write_text. simpl.
  by destruct (write_fault w _).
Qed.

Lemma invalid_arguments (key : string) (arguments : option (dict string)) :
  dict_get key (arguments_dict arguments) = None →
  not_arguments arguments || negb (dict_in key (arguments_dict arguments)) = true.
Proof. intros H. unfold dict_in. rewrite H. apply orb_true_r. Qed.

(** The tracker after a [scan-event-website] call, whatever happened: it is
    the one before, or the one before merged with a batch and stamped. *)
Lemma scan_event_website_tracker w arguments s :
  let s' := snd (scan_event_website w arguments s) in
  tracker s' = tracker s ∨
  ∃ now observed,
    tracker s' = mk_tracker (merge_companies now observed (companies (tracker s)))
                            (contacts (tracker s)) (Some (Dt now)).
Proof.
  destruct (dict_get "url" (arguments_dict arguments)) as [url|] eqn:Hurl.
  - destruct arguments as [args|]; [|discriminate]. simpl in Hurl.
    rewrite (scan_event_website_spec _ _ _ _ Hurl).
    destruct (extract_companies w url s) as [[observed|e] s1] eqn:He;
      apply extract_companies_frame in He as (Ht & _ & _); simpl; [|by left].
    right. exists (clock w (trace s1)), observed. rewrite <- Ht.
    by destruct (write_fault w _).
  - left. unfold scan_event_website. by rewrite (invalid_arguments _ _ Hurl).
Qed.

(** The tracker after an [enrich-contacts] call, whatever happened. *)
Lemma enrich_contacts_tracker w arguments s :
  let s' := snd (enrich_contacts w arguments s) in
  tracker s' = tracker s ∨
  ∃ batch,
    tracker s' = mk_tracker (companies (tracker s))
                            (store_all batch (contacts (tracker s)))
                            (last_check (tracker s)).
Proof.
  destruct (dict_get "sequence_id" (arguments_dict arguments)) as [sid|] eqn:Hsid.
  - destruct arguments as [args|]; [|discriminate]. simpl in Hsid.
    rewrite (enrich_contacts_spec _ _ _ _ Hsid). right. eexists.
    by destruct (write_fault w _).
  - left. unfold enrich_contacts. by rewrite (invalid_arguments _ _ Hsid).
Qed.

Lemma observe_complete w kind el s :
  complete el →
  ∃ c, observe w kind el s = (Return c, record DatetimeNow (record DatetimeNow s)) ∧
       built_from kind el c.
Proof.
  intros [[n Hn] [h Hh]].
  unfold observe, bind, name_text, anchor_href, datetime_now, ret. rewrite Hn, Hh. simpl.
  eexists. split; [done|]. by repeat split.
Qed.

Lemma observe_incomplete w kind el s :
  ¬ complete el →
  ∃ e, observe w kind el s = (Raise e, s) ∧
       ((∃ m, e = AttributeError m) ∨ (∃ m, e = TypeError m) ∨ e = KeyError "href").
Proof.
  intros Hc. unfold observe, bind, name_text, anchor_href, raise.
  destruct (el_name el) as [n|] eqn:Hn; [|eauto 6].
  destruct (el_anchor el) as [[h|]|] eqn:Hh; [|eauto 6..].
  destruct Hc. split; eauto.
Qed.

Lemma complete_dec (el : element) : complete el ∨ ¬ complete el.
Proof.
  unfold complete. destruct (el_name el) as [n|]; [|right; by intros [[? ?] _]].
  destruct (el_anchor el) as [[h|]|]; [left; eauto|right; by intros [_ [? ?]]..].
Qed.

Lemma complete_all_or_not (els : list element) :
  Forall complete els ∨ Exists (λ el, ¬ complete el) els.
Proof.
  induction els as [|el els [IH|IH]]; [by left| |right; by apply Exists_cons_tl].
  destruct (complete_dec el); [left; by constructor|right; by apply Exists_cons_hd].
Qed.

Lemma replicate_clock_reads (n : nat) (tr : list event) :
  ((tr ++ [DatetimeNow]) ++ [DatetimeNow]) ++ replicate n DatetimeNow =
  tr ++ replicate (S (S n)) DatetimeNow.
Proof. by rewrite <- !app_assoc. Qed.

(** Complete elements: one company per element, in order, two clock reads
    each. *)
Lemma collect_complete w kind els s :
  Forall complete els →
  ∃ cs s1, collect els (observe w kind) s = (Return cs, s1) ∧
           Forall2 (built_from kind) els cs ∧
           trace s1 = trace s ++ replicate (2 * length els) DatetimeNow.
Proof.
  intros Hall. revert s. induction Hall as [|el els Hel Hall IH]; intros s.
  - exists [], s. simpl. by rewrite app_nil_r.
  - destruct (observe_complete w kind el s Hel) as (c & Ho & Hb).
    destruct (IH (record DatetimeNow (record DatetimeNow s))) as (cs & s1 & Hc & Hf & Ht).
    exists (c :: cs), s1. simpl collect. unfold bind at 1. rewrite Ho.
    unfold bind at 1. rewrite Hc. split; [done|]. split; [by constructor|].
    rewrite Ht. simpl trace.
    replace (2 * length (el :: els)) with (S (S (2 * length els))) by (simpl; lia).
    apply replicate_clock_reads.
Qed.

(** An incomplete element: the loop raises at the first one, after the clock
    reads of the elements before it. *)
Lemma collect_incomplete w kind els s :
  Exists (λ el, ¬ complete el) els →
  ∃ e s1 k, collect els (observe w kind) s = (Raise e, s1) ∧
            ((∃ m, e = AttributeError m) ∨ (∃ m, e = TypeError m) ∨ e = KeyError "href") ∧
            trace s1 = trace s ++ replicate k DatetimeNow.
Proof.
  revert s. induction els as [|el els IH]; intros s Hex; [by apply Exists_nil in Hex|].
  destruct (complete_dec el) as [Hel|Hel].
  - apply Exists_cons in Hex as [?|Hex]; [done|].
    destruct (observe_complete w kind el s Hel) as (c & Ho & _).
    destruct (IH (record DatetimeNow (record DatetimeNow s)) Hex) as (e & s1 & k & Hc & He & Ht).
    exists e, s1, (S (S k)). simpl collect. unfold bind at 1. rewrite Ho.
    unfold bind at 1. rewrite Hc. split; [done|]. split; [done|].
    rewrite Ht. simpl trace. apply replicate_clock_reads.
  - destruct (observe_incomplete w kind el s Hel) as (e & Ho & He).
    exists e, s, 0. simpl collect. unfold bind at 1. rewrite Ho.
    split; [done|]. split; [done|]. simpl. by rewrite app_nil_r.
Qed.

Lemma replicate_clock_reads_app (tr : list event) (n m : nat) :
  (tr ++ replicate n DatetimeNow) ++ replicate m DatetimeNow =
  tr ++ replicate (n + m) DatetimeNow.
Proof. by rewrite <- app_assoc, replicate_add. Qed.

(** ** The company mapping after a merge *)

Lemma merge_company_keys now c cs :
  dict_keys (merge_company now c cs) =
  if decide (Company.name c ∈ dict_keys cs) then dict_keys cs
  else dict_keys cs ++ [Company.name c].
Proof.
  unfold merge_company.
  destruct (dict_get (Company.name c) cs); apply dict_keys_set.
Qed.

Lemma merge_companies_keys now observed cs :
  dict_keys (merge_companies now observed cs) =
  dict_keys cs ++ fresh_names (dict_keys cs) (map Company.name observed).
Proof.
  revert cs. induction observed as [|c observed IH]; intros cs.
  - simpl. by rewrite app_nil_r.
  - rewrite merge_companies_cons, IH, merge_company_keys.
    change (map Company.name (c :: observed))
      with (Company.name c :: map Company.name observed).
    change (fresh_names (dict_keys cs) (Company.name c :: map Company.name observed))
      with (if decide (Company.name c ∈ dict_keys cs)
            then fresh_names (dict_keys cs) (map Company.name observed)
            else Company.name c ::
                 fresh_names (dict_keys cs ++ [Company.name c]) (map Company.name observed)).
    case_decide; [done|]. by rewrite <- app_assoc.
Qed.

Lemma fresh_names_covers known names n :
  n ∈ names → n ∈ known ++ fresh_names known names.
Proof.
  revert known. induction names as [|m names IH]; intros known; [by intros ?%elem_of_nil|].
  change (fresh_names known (m :: names))
    with (if decide (m ∈ known) then fresh_names known names
          else m :: fresh_names (known ++ [m]) names).
  intros [->|Hn]%elem_of_cons.
  - case_decide as Hm; [apply elem_of_app; by left|].
    apply elem_of_app. right. apply elem_of_cons. by left.
  - case_decide as Hm; [by apply IH|].
    specialize (IH (known ++ [m]) Hn). rewrite <- app_assoc in IH. exact IH.
Qed.

Lemma merge_companies_NoDup now observed cs :
  NoDup (dict_keys cs) → NoDup (dict_keys (merge_companies now observed cs)).
Proof.
  revert cs. induction observed as [|c observed IH]; intros cs Hcs; [done|].
  rewrite merge_companies_cons. apply IH. unfold merge_company.
  destruct (dict_get (Company.name c) cs); by apply dict_set_NoDup.
Qed.

Lemma merge_companies_keyed now observed cs :
  Forall (λ kv, fst kv = Company.name (snd kv)) cs →
  Forall (λ kv, fst kv = Company.name (snd kv)) (merge_companies now observed cs).
Proof.
  revert cs. induction observed as [|c observed IH]; intros cs Hcs; [done|].
  rewrite merge_companies_cons. apply IH. unfold merge_company.
  destruct (dict_get (Company.name c) cs) as [tracked|] eqn:Hget.
  - pose proof (dict_get_Forall _ _ _ _ Hcs Hget) as Hname. simpl in Hname.
    apply dict_set_Forall; [|by destruct tracked|done].
    intros k' _ ->. by destruct tracked.
  - by apply dict_set_Forall.
Qed.

Lemma store_all_keys_prefix l d :
  dict_keys d `prefix_of` dict_keys (store_all l d).
Proof.
  revert d. induction l as [|c l IH]; intros d; [done|].
  change (store_all (c :: l) d) with (store_all l (dict_set (Contact.apollo_id c) c d)).
  etrans; [apply dict_set_keys_prefix|apply IH].
Qed.

Lemma store_all_NoDup l d :
  NoDup (dict_keys d) → NoDup (dict_keys (store_all l d)).
Proof.
  revert d. induction l as [|c l IH]; intros d Hd; [done|].
  change (store_all (c :: l) d) with (store_all l (dict_set (Contact.apollo_id c) c d)).
  by apply IH, dict_set_NoDup.
Qed.

Lemma store_all_keyed l d :
  Forall (λ kv, fst kv = Contact.apollo_id (snd kv)) d →
  Forall (λ kv, fst kv = Contact.apollo_id (snd kv)) (store_all l d).
Proof.
  revert d. induction l as [|c l IH]; intros d Hd; [done|].
  change (store_all (c :: l) d) with (store_all l (dict_set (Contact.apollo_id c) c d)).
  apply IH. by apply dict_set_Forall.
Qed.

(** ** All tools *)

Lemma get_changes_unbound w s :
  get_changes w None s =
  if truthy (last_check (tracker s))
  then (Raise (UnboundLocalError "url"), s)
  else (Return [mk_text "No previous scan to compare with"], s).
Proof.
  unfold get_changes, bind, get_tracker.
  by destruct (truthy (last_check (tracker s))).
Qed.

(** The tracker after any tool call: unchanged, merged with a batch of
    companies and stamped, or with a batch of contacts stored. *)
Lemma handle_call_tool_tracker w name arguments s :
  let s' := snd (handle_call_tool w name arguments s) in
  tracker s' = tracker s ∨
  (∃ now observed,
     tracker s' = mk_tracker (merge_companies now observed (companies (tracker s)))
                             (contacts (tracker s)) (Some (Dt now))) ∨
  (∃ batch,
     tracker s' = mk_tracker (companies (tracker s))
                             (store_all batch (contacts (tracker s)))
                             (last_check (tracker s))).
Proof.
  cbv zeta. unfold handle_call_tool.
  destruct (decide (name = "scan-event-website")).
  { destruct (scan_event_website_tracker w arguments s); eauto. }
  destruct (decide (name = "enrich-contacts")).
  { destruct (enrich_contacts_tracker w arguments s); eauto. }
  destruct (decide (name = "get-changes")); [|by left].
  left. rewrite get_changes_unbound. by destruct (truthy _).
Qed.

(** ** The advertised tools and the dispatcher *)

(** X1.  A name that [handle_list_tools] does not list is refused: the call
    raises [ValueError("Unknown tool: <name>")] and nothing changes. *)
Theorem unlisted_tool_is_refused w name arguments s :
  name ∉ map tool_name handle_list_tools →
  handle_call_tool w name arguments s =
  (Raise (ValueError ("Unknown tool: " +:+ name)), s).
Proof.
  intros Hname. unfold handle_call_tool.
  rewrite !decide_False; [done|intros ->; apply Hname; simpl; rewrite !elem_of_cons; tauto..].
Qed.

Lemma unlisted_tool_is_refused_witness :
  handle_call_tool demo "delete-company" None tracked =
  (Raise (ValueError "Unknown tool: delete-company"), tracked).
Proof.
  apply (unlisted_tool_is_refused demo "delete-company" None tracked).
  simpl. rewrite !elem_of_cons, elem_of_nil. intros [?|[?|[?|[]]]]; discriminate.
Defined.

(** X2.  A call of a listed tool that lacks an argument the tool's schema
    declares required (no arguments at all, an empty object, or an object
    without that key) raises [ValueError] before anything is done: the
    tracker, the file and the trace are as before. *)
Theorem missing_required_argument_is_refused w tool key arguments s :
  tool ∈ handle_list_tools →
  key ∈ tool_required tool →
  dict_get key (arguments_dict arguments) = None →
  ∃ msg, handle_call_tool w (tool_name tool) arguments s = (Raise (ValueError msg), s).
Proof.
  unfold handle_list_tools. rewrite !elem_of_cons, elem_of_nil.
  intros [->|[->|[->|[]]]]; simpl; rewrite ?elem_of_cons, elem_of_nil.
  - intros [->|[]] Hkey. rewrite handle_scan. unfold scan_event_website.
    rewrite (invalid_arguments _ _ Hkey). by eexists.
  - intros [->|[]] Hkey. rewrite handle_enrich. unfold enrich_contacts.
    rewrite (invalid_arguments _ _ Hkey). by eexists.
  - intros [].
Qed.

Lemma missing_required_argument_is_refused_witness :
  ∃ msg, handle_call_tool demo "enrich-contacts" (Some [("sequence", "seq-7")]) tracked =
         (Raise (ValueError msg), tracked).
Proof.
  apply (missing_required_argument_is_refused demo
           (mk_tool "enrich-contacts"
                    "Find key decision makers at companies using Apollo.io"
                    [("sequence_id", "Apollo.io sequence ID to add contacts to")]
                    ["sequence_id"])
           "sequence_id" (Some [("sequence", "seq-7")]) tracked).
  - unfold handle_list_tools. apply elem_of_cons. right. apply elem_of_cons. by left.
  - apply elem_of_cons. by left.
  - reflexivity.
Defined.

(** ** [extract_companies] and the scan *)

(** Extraction from a page that is fetched and whose elements are all complete. *)
Lemma extract_companies_complete w url s soup :
  page_response w (trace s) url = Return soup →
  Forall complete (sponsors soup) →
  Forall complete (attendees soup) →
  ∃ from_sponsors from_attendees s1,
    extract_companies w url s = (Return (from_sponsors ++ from_attendees), s1) ∧
    Forall2 (built_from "sponsor") (sponsors soup) from_sponsors ∧
    Forall2 (built_from "attendee") (attendees soup) from_attendees ∧
    trace s1 = trace s ++ HttpGet url ::
               replicate (2 * (length (sponsors soup) + length (attendees soup))) DatetimeNow.
Proof.
  intros Hpage Hs Ha.
  destruct (collect_complete w "sponsor" (sponsors soup) (record (HttpGet url) s) Hs)
    as (cs & s1 & Hc & Hf & Ht).
  destruct (collect_complete w "attendee" (attendees soup) s1 Ha)
    as (cs' & s2 & Hc' & Hf' & Ht').
  exists cs, cs', s2. unfold extract_companies, bind at 1, http_get. rewrite Hpage.
  unfold bind at 1. rewrite Hc. unfold bind at 1. rewrite Hc'.
  split; [done|]. split; [done|]. split; [done|].
  rewrite Ht', Ht, replicate_clock_reads_app. simpl trace.
  rewrite <- app_assoc. simpl. do 3 f_equal. lia.
Qed.

(** X3.  When the page is fetched and every sponsor and attendee element has
    a name and a link, extraction returns one company per element, the
    sponsors first and the attendees after them, each in page order, with the
    element's name and link and the type of its list.  It makes the page
    request and then reads the clock twice per company, and nothing else. *)
Theorem extraction_lists_sponsors_then_attendees w url s soup :
  page_response w (trace s) url = Return soup →
  Forall complete (sponsors soup) →
  Forall complete (attendees soup) →
  ∃ from_sponsors from_attendees s1,
    extract_companies w url s = (Return (from_sponsors ++ from_attendees), s1) ∧
    Forall2 (built_from "sponsor") (sponsors soup) from_sponsors ∧
    Forall2 (built_from "attendee") (attendees soup) from_attendees ∧
    trace s1 = trace s ++ HttpGet url ::
               replicate (2 * (length (sponsors soup) + length (attendees soup))) DatetimeNow.
Proof. apply extract_companies_complete. Qed.

Lemma extraction_lists_sponsors_then_attendees_witness :
  ∃ from_sponsors from_attendees s1,
    extract_companies demo "https://event.example" fresh =
      (Return (from_sponsors ++ from_attendees), s1) ∧
    Forall2 (built_from "sponsor") [listing "Acme" "https://acme.example"] from_sponsors ∧
    Forall2 (built_from "attendee") [] from_attendees ∧
    trace s1 = [HttpGet "https://event.example"; DatetimeNow; DatetimeNow].
Proof.
  apply (extraction_lists_sponsors_then_attendees demo "https://event.example" fresh
           (mk_page [listing "Acme" "https://acme.example"] [])).
  - reflexivity.
  - repeat constructor; simpl; eauto.
  - constructor.
Defined.

(** The scan when extraction raises. *)
Lemma scan_after_failed_extraction w args url s e s1 :
  dict_get "url" args = Some url →
  extract_companies w url s = (Raise e, s1) →
  handle_call_tool w "scan-event-website" (Some args) s = (Raise e, s1).
Proof.
  intros Hurl He. by rewrite handle_scan, (scan_event_website_spec _ _ _ _ Hurl), He.
Qed.

(** X4.  If the page cannot be fetched, or one sponsor or attendee element
    lacks its name, its link or the link's href, the scan raises and is void:
    no company of the page is merged, not even those listed before the
    incomplete element; the tracker and the file are as before and the clock
    was not read for [now].  The only external calls made are the page request
    and the clock reads of the elements before the incomplete one. *)
Theorem incomplete_page_voids_the_scan w args url s :
  dict_get "url" args = Some url →
  (∃ e, page_response w (trace s) url = Raise e) ∨
  (∃ soup, page_response w (trace s) url = Return soup ∧
           Exists (λ el, ¬ complete el) (sponsors soup ++ attendees soup)) →
  let r := handle_call_tool w "scan-event-website" (Some args) s in
  (∃ e, fst r = Raise e) ∧
  tracker (snd r) = tracker s ∧
  storage (snd r) = storage s ∧
  ∃ k, trace (snd r) = trace s ++ HttpGet url :: replicate k DatetimeNow.
Proof.
  intros Hurl Hpage. cbv zeta.
  assert (∃ e s1 k, extract_companies w url s = (Raise e, s1) ∧
                    trace s1 = trace s ++ HttpGet url :: replicate k DatetimeNow)
    as (e & s1 & k & He & Ht).
  { unfold extract_companies, bind at 1, http_get.
    destruct Hpage as [[e Hp]|(soup & Hp & Hex)]; rewrite Hp.
    - exists e, (record (HttpGet url) s), 0. split; [done|]. by simpl.
    - unfold bind at 1. apply Exists_app in Hex as [Hex|Hex].
      + destruct (collect_incomplete w "sponsor" _ (record (HttpGet url) s) Hex)
          as (e & s1 & k & Hc & _ & Ht).
        exists e, s1, k. rewrite Hc. split; [done|].
        rewrite Ht. simpl. by rewrite <- app_assoc.
      + destruct (complete_all_or_not (sponsors soup)) as [Hall|Hex'].
        * destruct (collect_complete w "sponsor" _ (record (HttpGet url) s) Hall)
            as (cs & s1 & Hc & _ & Ht).
          rewrite Hc. unfold bind at 1.
          destruct (collect_incomplete w "attendee" _ s1 Hex)
            as (e & s2 & k & Hc' & _ & Ht').
          exists e, s2, (2 * length (sponsors soup) + k). rewrite Hc'. split; [done|].
          rewrite Ht', Ht, replicate_clock_reads_app. simpl. by rewrite <- app_assoc.
        * destruct (collect_incomplete w "sponsor" _ (record (HttpGet url) s) Hex')
            as (e & s1 & k & Hc & _ & Ht).
          exists e, s1, k. rewrite Hc. split; [done|].
          rewrite Ht. simpl. by rewrite <- app_assoc. }
  rewrite (scan_after_failed_extraction _ _ _ _ _ _ Hurl He). simpl.
  apply extract_companies_frame in He as (Htr & Hst & _).
  split; [eauto|]. split; [done|]. split; [done|]. eauto.
Qed.

Lemma incomplete_page_voids_the_scan_witness :
  let r := handle_call_tool broken "scan-event-website" (Some scan_arguments) tracked in
  (∃ e, fst r = Raise e) ∧
  tracker (snd r) = tracker tracked ∧
  storage (snd r) = storage tracked ∧
  ∃ k, trace (snd r) =
       trace tracked ++ HttpGet "https://event.example" :: replicate k DatetimeNow.
Proof.
  apply (incomplete_page_voids_the_scan broken scan_arguments "https://event.example" tracked);
    [reflexivity|].
  right. exists broken_page. split; [reflexivity|].
  apply Exists_cons_tl, Exists_cons_hd. intros [_ [h Hh]]. discriminate.
Defined.

(** X5.  A scan whose extraction returns keeps every tracked company at its
    place in the mapping and appends the names it did not know, once each, in
    the order in which the page first shows them; afterwards every observed
    name is tracked.  This holds whether or not the snapshot write succeeds. *)
Theorem scan_appends_new_companies w args url s observed s1 :
  dict_get "url" args = Some url →
  extract_companies w url s = (Return observed, s1) →
  let s' := snd (handle_call_tool w "scan-event-website" (Some args) s) in
  dict_keys (companies (tracker s')) =
    dict_keys (companies (tracker s)) ++
    fresh_names (dict_keys (companies (tracker s))) (map Company.name observed) ∧
  (∀ c, c ∈ observed → is_Some (dict_get (Company.name c) (companies (tracker s')))).
Proof.
  intros Hurl He. cbv zeta.
  rewrite (scan_event_website_merges _ _ _ _ _ _ Hurl He). simpl.
  apply extract_companies_frame in He as (-> & _ & _).
  split; [apply merge_companies_keys|].
  intros c Hc. apply dict_get_keys. rewrite merge_companies_keys.
  apply fresh_names_covers, list_elem_of_fmap. eauto.
Qed.

Lemma scan_appends_new_companies_witness :
  dict_keys (companies (tracker (snd
    (handle_call_tool demo "scan-event-website" (Some scan_arguments) bolt_only)))) =
  ["Bolt"; "Acme"].
Proof.
  destruct (scan_appends_new_companies demo scan_arguments "https://event.example" bolt_only
              [Company.mk "Acme" "https://acme.example" "sponsor"
                          (Dt (at_tick 1)) (Dt (at_tick 2))]
              (mk_env (tracker bolt_only) None []
                      [HttpGet "https://event.example"; DatetimeNow; DatetimeNow]))
    as (Hkeys & _); [reflexivity|reflexivity|].
  rewrite Hkeys. reflexivity.
Defined.

(** X6.  No tool call ever removes or reorders an entry: for every name,
    arguments and environment, the keys of the company mapping before the
    call are a prefix of the keys after it, and so are the keys of the
    contact mapping. *)
Theorem no_tool_call_forgets w name arguments s :
  let s' := snd (handle_call_tool w name arguments s) in
  dict_keys (companies (tracker s)) `prefix_of` dict_keys (companies (tracker s')) ∧
  dict_keys (contacts (tracker s)) `prefix_of` dict_keys (contacts (tracker s')).
Proof.
  cbv zeta.
  destruct (handle_call_tool_tracker w name arguments s)
    as [->|[(now & observed & ->)|(batch & ->)]]; simpl.
  - done.
  - split; [|done]. rewrite merge_companies_keys. by apply prefix_app_r.
  - split; [done|]. apply store_all_keys_prefix.
Qed.

(** X7.  A [scan-event-website] call never touches the contact mapping,
    whatever its arguments and whatever the page, the clock and the disk do. *)
Theorem scan_leaves_contacts_alone w arguments s :
  contacts (tracker (snd (handle_call_tool w "scan-event-website" arguments s))) =
  contacts (tracker s).
Proof.
  rewrite handle_scan.
  by destruct (scan_event_website_tracker w arguments s) as [->|(now & observed & ->)].
Qed.

(** X8.  A tool call that returns has either written the snapshot of the
    tracker it leaves in memory, so that file and memory agree, or changed
    nothing at all (the [get-changes] answer). *)
Theorem returning_call_is_in_sync w name arguments s out :
  fst (handle_call_tool w name arguments s) = Return out →
  in_sync (snd (handle_call_tool w name arguments s)) ∨
  snd (handle_call_tool w name arguments s) = s.
Proof.
  unfold handle_call_tool, in_sync.
  destruct (decide (name = "scan-event-website")) as [Hscan|Hscan].
  { destruct (dict_get "url" (arguments_dict arguments)) as [url|] eqn:Hurl.
    - destruct arguments as [args|]; [|discriminate]. simpl in Hurl.
      rewrite (scan_event_website_spec _ _ _ _ Hurl).
      destruct (extract_companies w url s) as [[observed|err] s1]; [|done].
      cbv zeta. destruct (write_fault w _); [by left|done..].
    - unfold scan_event_website. by rewrite (invalid_arguments _ _ Hurl). }
  destruct (decide (name = "enrich-contacts")) as [Henrich|Henrich].
  { destruct (dict_get "sequence_id" (arguments_dict arguments)) as [sid|] eqn:Hsid.
    - destruct arguments as [args|]; [|discriminate]. simpl in Hsid.
      rewrite (enrich_contacts_spec _ _ _ _ Hsid).
      destruct (write_fault w _); [by left|done..].
    - unfold enrich_contacts. by rewrite (invalid_arguments _ _ Hsid). }
  destruct (decide (name = "get-changes")) as [Hchanges|Hchanges]; [|done].
  rewrite get_changes_unbound. destruct (truthy _); [done|by right].
Qed.

Lemma returning_call_is_in_sync_witness :
  in_sync (snd (handle_call_tool demo "enrich-contacts" (Some sequence_arguments) tracked)) ∨
  snd (handle_call_tool demo "enrich-contacts" (Some sequence_arguments) tracked) = tracked.
Proof.
  apply (returning_call_is_in_sync demo "enrich-contacts" (Some sequence_arguments) tracked
           [mk_text "Added 3 contacts to sequence"]).
  reflexivity.
Defined.

(** X9.  Once a scan has returned, [get-changes] is of no use: whatever the
    environment then is, the next [get-changes] call raises
    [UnboundLocalError] and leaves the state alone. *)
Theorem get_changes_raises_after_any_scan w w' arguments arguments' s out :
  fst (handle_call_tool w "scan-event-website" arguments s) = Return out →
  let scanned := snd (handle_call_tool w "scan-event-website" arguments s) in
  handle_call_tool w' "get-changes" arguments' scanned =
  (Raise (UnboundLocalError "url"), scanned).
Proof.
  rewrite handle_scan, handle_changes. intros Hout. cbv zeta.
  rewrite get_changes_unbound.
  assert (truthy (last_check (tracker (snd (scan_event_website w arguments s)))) = true) as ->;
    [|done].
  destruct (dict_get "url" (arguments_dict arguments)) as [url|] eqn:Hurl.
  - destruct arguments as [args|]; [|discriminate]. simpl in Hurl.
    rewrite (scan_event_website_spec _ _ _ _ Hurl) in *.
    destruct (extract_companies w url s) as [[observed|e] s1]; [|done].
    cbv zeta in *. by destruct (write_fault w _).
  - unfold scan_event_website in Hout. by rewrite (invalid_arguments _ _ Hurl) in Hout.
Qed.

Lemma get_changes_raises_after_any_scan_witness :
  handle_call_tool silent "get-changes" None scanned =
  (Raise (UnboundLocalError "url"), scanned).
Proof.
  apply (get_changes_raises_after_any_scan demo silent (Some scan_arguments) None fresh
           [mk_text "Found 1 companies: Acme"]).
  reflexivity.
Defined.

(** X10.  Every tool call keeps the tracker consistent: keys stay unique,
    every company stays under its own name and every contact under its own
    id, whatever the call and the environment. *)
Theorem tool_calls_keep_the_tracker_consistent w name arguments s :
  consistent (tracker s) →
  consistent (tracker (snd (handle_call_tool w name arguments s))).
Proof.
  intros (Hc & Hk & Hcn & Hki).
  destruct (handle_call_tool_tracker w name arguments s)
    as [->|[(now & observed & ->)|(batch & ->)]]; unfold consistent; simpl.
  - done.
  - split; [by apply merge_companies_NoDup|]. split; [done|].
    split; [by apply merge_companies_keyed|done].
  - split; [done|]. split; [by apply store_all_NoDup|].
    split; [done|by apply store_all_keyed].
Qed.

Lemma tool_calls_keep_the_tracker_consistent_witness :
  consistent (tracker (snd (handle_call_tool demo "enrich-contacts"
                              (Some sequence_arguments) tracked))).
Proof.
  apply (tool_calls_keep_the_tracker_consistent demo "enrich-contacts"
           (Some sequence_arguments) tracked).
  unfold consistent. simpl. split; [|split; [|split]].
  - apply NoDup_cons. split; [|apply NoDup_singleton].
    intros [?|[]%elem_of_nil]%elem_of_cons. discriminate.
  - apply NoDup_singleton.
  - by repeat constructor.
  - by repeat constructor.
Defined.

(** ** More on the enrichment run *)

Lemma run_found_nothing w h cs :
  cs = [] ∨ (∀ h n lv people, people_response w h n lv = Return people → people = []) →
  run_found w h cs = [].
Proof.
  intros [->|Hw]; [done|]. revert h. induction cs as [|c cs IH]; intros h; [done|].
  simpl. rewrite IH, app_nil_r. unfold found.
  destruct (people_response w h (Company.name c) seniority) as [people|e] eqn:Hr; [|done].
  by rewrite (Hw _ _ _ _ Hr).
Qed.

(** X11.  An [enrich-contacts] call that has nothing to merge, because no
    company is tracked or because every search that returns is empty, leaves
    the tracker as it was and makes no enrollment call; it still searches
    every tracked company and writes the snapshot, and when the write
    succeeds it reports "Added 0 contacts to sequence". *)
Theorem enrich_without_results w args sid s :
  dict_get "sequence_id" args = Some sid →
  companies (tracker s) = [] ∨
  (∀ h n lv people, people_response w h n lv = Return people → people = []) →
  let r := handle_call_tool w "enrich-contacts" (Some args) s in
  tracker (snd r) = tracker s ∧
  (∃ events, trace (snd r) = trace s ++ events ++ [WriteText (json_dumps (tracker s))] ∧
             enrollments events = [] ∧
             searched events = map Company.name (dict_values (companies (tracker s)))) ∧
  ((∀ h, write_fault w h = NoFault) →
   fst r = Return [mk_text "Added 0 contacts to sequence"]).
Proof.
  intros Hsid Hnone. cbv zeta.
  rewrite handle_enrich, (enrich_contacts_spec _ _ _ _ Hsid).
  assert (run_found w (trace s) (dict_values (companies (tracker s))) = []) as ->.
  { apply run_found_nothing. destruct Hnone as [->|?]; eauto. }
  simpl store_all. unfold submit_events. rewrite app_nil_r.
  assert (mk_tracker (companies (tracker s)) (contacts (tracker s)) (last_check (tracker s))
          = tracker s) as -> by by destruct (tracker s).
  split; [by destruct (write_fault w _)|]. split.
  - exists (run_events w (trace s) (dict_values (companies (tracker s)))).
    rewrite enrollments_run_events, searched_run_events.
    split; [|done]. destruct (write_fault w _); simpl; by rewrite <- app_assoc.
  - intros Hw. by rewrite Hw.
Qed.

Lemma enrich_without_results_witness :
  let r := handle_call_tool silent "enrich-contacts" (Some sequence_arguments) tracked in
  tracker (snd r) = tracker tracked ∧
  fst r = Return [mk_text "Added 0 contacts to sequence"].
Proof.
  destruct (enrich_without_results silent sequence_arguments "seq-7" tracked)
    as (Htracker & _ & Hreport); [reflexivity| |].
  - right. intros h n lv people [= <-]. reflexivity.
  - split; [exact Htracker|]. apply Hreport. intros h. reflexivity.
Defined.

Lemma contact_of_incomplete c p :
  ¬ well_formed p →
  ∃ key, contact_of c p = Raise (KeyError key) ∧ key ∈ ["name"; "title"; "email"; "id"].
Proof.
  intros Hp. unfold contact_of.
  destruct (dict_get "name" p) eqn:Hn;
    [|exists "name"; split; [done|rewrite !elem_of_cons; tauto]].
  destruct (dict_get "title" p) eqn:Ht;
    [|exists "title"; split; [done|rewrite !elem_of_cons; tauto]].
  destruct (dict_get "email" p) eqn:He;
    [|exists "email"; split; [done|rewrite !elem_of_cons; tauto]].
  destruct (dict_get "id" p) eqn:Hi;
    [|exists "id"; split; [done|rewrite !elem_of_cons; tauto]].
  destruct Hp. unfold well_formed. rewrite Hn, Ht, He, Hi. eauto.
Qed.

Lemma merged_until_incomplete c good tl :
  Forall well_formed good →
  ∃ built, Forall2 (λ p x, contact_of c p = Return x) good built ∧
           merged c (good ++ tl) = built ++ merged c tl ∧
           stopped c (good ++ tl) = stopped c tl.
Proof.
  induction 1 as [|p good Hp Hgood (built & Hf & Hm & Hs)]; [by exists []|].
  destruct Hp as ([n Hn] & [t Ht] & [e He] & [i Hi]).
  assert (contact_of c p = Return (Contact.mk n t (Company.name c) e i)) as Hc.
  { unfold contact_of. by rewrite Hn, Ht, He, Hi. }
  eexists (_ :: built). simpl. rewrite Hc, Hm, Hs.
  split; [by constructor|done].
Qed.

(** X12.  When a search returns a record that lacks one of name, title, email
    and id, the visit of that company ends at that record without raising:
    the [KeyError] for the missing field is caught, the records before it have
    been merged and are in the batch, the incomplete record and all records
    after it are dropped, and the search is the only external call of the
    visit (no sleep is made, and no log notification is sent). *)
Theorem incomplete_record_ends_the_visit w c s good bad rest :
  people_response w (trace s) (Company.name c) seniority = Return (good ++ bad :: rest) →
  Forall well_formed good →
  ¬ well_formed bad →
  ∃ built key,
    Forall2 (λ p x, contact_of c p = Return x) good built ∧
    key ∈ ["name"; "title"; "email"; "id"] ∧
    failure w (trace s) c = Some (KeyError key) ∧
    enrich_company w c s =
    (Return tt,
     mk_env (mk_tracker (companies (tracker s))
                        (store_all built (contacts (tracker s)))
                        (last_check (tracker s)))
            (storage s) (new_contacts s ++ built)
            (trace s ++ [SearchPeople (Company.name c) seniority])).
Proof.
  intros Hr Hgood Hbad.
  destruct (merged_until_incomplete c good (bad :: rest) Hgood) as (built & Hf & Hm & Hs).
  destruct (contact_of_incomplete c bad Hbad) as (key & Hc & Hkey).
  exists built, key. split; [done|]. split; [done|].
  assert (failure w (trace s) c = Some (KeyError key)) as Hfail.
  { unfold failure. rewrite Hr, Hs. simpl. by rewrite Hc. }
  split; [done|].
  rewrite enrich_company_spec. unfold found, visit_events. rewrite Hfail, Hr, Hm.
  simpl. rewrite Hc. by rewrite app_nil_r.
Qed.

Lemma incomplete_record_ends_the_visit_witness :
  ∃ built key,
    Forall2 (λ p x, contact_of bolt p = Return x) [hit "p1" "Ann"] built ∧
    key ∈ ["name"; "title"; "email"; "id"] ∧
    failure patchy (trace tracked) bolt = Some (KeyError key) ∧
    enrich_company patchy bolt tracked =
    (Return tt,
     mk_env (mk_tracker (companies (tracker tracked))
                        (store_all built (contacts (tracker tracked)))
                        (last_check (tracker tracked)))
            (storage tracked) (new_contacts tracked ++ built)
            (trace tracked ++ [SearchPeople (Company.name bolt) seniority])).
Proof.
  apply (incomplete_record_ends_the_visit patchy bolt tracked
           [hit "p1" "Ann"] [("id", "p2"); ("name", "Bob"); ("title", "CTO")]
           [hit "p3" "Cyd"]).
  - reflexivity.
  - repeat constructor; simpl; eauto.
  - intros (_ & _ & [e He] & _). discriminate.
Defined.

Lemma merged_provenance c people x :
  x ∈ merged c people → ∃ p, p ∈ people ∧ contact_of c p = Return x.
Proof.
  induction people as [|p people IH]; simpl; [by intros ?%elem_of_nil|].
  destruct (contact_of c p) as [y|e] eqn:Hc; [|by intros ?%elem_of_nil].
  intros [->|Hx]%elem_of_cons.
  - exists p. split; [apply elem_of_cons; by left|done].
  - destruct (IH Hx) as (q & Hq & Hcq). exists q.
    split; [apply elem_of_cons; by right|done].
Qed.

Lemma batch_provenance w cs h0 x :
  x ∈ run_found w h0 cs →
  ∃ c before after people p,
    c ∈ cs ∧
    run_events w h0 cs = before ++ SearchPeople (Company.name c) seniority :: after ∧
    people_response w (h0 ++ before) (Company.name c) seniority = Return people ∧
    p ∈ people ∧ contact_of c p = Return x.
Proof.
  revert h0. induction cs as [|c cs IH]; intros h0; simpl; [by intros ?%elem_of_nil|].
  intros [Hx|Hx]%elem_of_app.
  - unfold found in Hx.
    destruct (people_response w h0 (Company.name c) seniority) as [people|e] eqn:Hr;
      [|by apply elem_of_nil in Hx].
    destruct (merged_provenance _ _ _ Hx) as (p & Hp & Hc).
    exists c, [], (tail (visit_events w h0 c) ++ run_events w (h0 ++ visit_events w h0 c) cs),
      people, p.
    rewrite app_nil_r. split; [apply elem_of_cons; by left|]. by repeat split.
  - destruct (IH _ Hx) as (c' & before & after & people & p & Hin & Heq & Hr & Hp & Hc).
    exists c', (visit_events w h0 c ++ before), after, people, p.
    rewrite Heq, <- !app_assoc. rewrite <- app_assoc in Hr.
    split; [apply elem_of_cons; by right|]. by repeat split.
Qed.

Lemma contact_of_fields c p x :
  contact_of c p = Return x →
  dict_get "name" p = Some (Contact.name x) ∧
  dict_get "title" p = Some (Contact.title x) ∧
  dict_get "email" p = Some (Contact.email x) ∧
  dict_get "id" p = Some (Contact.apollo_id x) ∧
  Contact.company x = Company.name c.
Proof.
  unfold contact_of.
  destruct (dict_get "name" p); [|done]. destruct (dict_get "title" p); [|done].
  destruct (dict_get "email" p); [|done]. destruct (dict_get "id" p); [|done].
  by intros [= <-].
Qed.

(** X13.  Every contact of the batch of an [enrich-contacts] call was built
    from a record that a search call of this very call returned: its name,
    title, email and id are the record's, and its company is the name of the
    tracked company that was searched for. *)
Theorem batch_contacts_come_from_searches w args sid s x :
  dict_get "sequence_id" args = Some sid →
  x ∈ new_contacts (snd (handle_call_tool w "enrich-contacts" (Some args) s)) →
  ∃ c before after people p,
    c ∈ dict_values (companies (tracker s)) ∧
    trace (snd (handle_call_tool w "enrich-contacts" (Some args) s)) =
      trace s ++ before ++ SearchPeople (Company.name c) seniority :: after ∧
    people_response w (trace s ++ before) (Company.name c) seniority = Return people ∧
    p ∈ people ∧
    dict_get "name" p = Some (Contact.name x) ∧
    dict_get "title" p = Some (Contact.title x) ∧
    dict_get "email" p = Some (Contact.email x) ∧
    dict_get "id" p = Some (Contact.apollo_id x) ∧
    Contact.company x = Company.name c.
Proof.
  intros Hsid. rewrite handle_enrich.
  pose proof (enrich_contacts_spec w args sid s Hsid) as Hspec. cbv zeta in Hspec.
  set (cs := dict_values (companies (tracker s))) in *.
  set (batch := run_found w (trace s) cs) in *.
  set (h := trace s ++ run_events w (trace s) cs) in *.
  assert (Hs' : new_contacts (snd (enrich_contacts w (Some args) s)) = batch ∧
                ∃ data, trace (snd (enrich_contacts w (Some args) s)) =
                        (h ++ submit_events sid batch) ++ [WriteText data]).
  { rewrite Hspec. destruct (write_fault w _); simpl; eauto. }
  destruct Hs' as (Hb & data & Htr). rewrite Hb, Htr. intros Hx.
  destruct (batch_provenance _ _ _ _ Hx)
    as (c & before & after & people & p & Hin & Heq & Hr & Hp & Hc).
  exists c, before, (after ++ submit_events sid batch ++ [WriteText data]), people, p.
  split; [done|]. split.
  { subst h. by rewrite Heq, <- !app_assoc. }
  split; [done|]. split; [done|]. by apply contact_of_fields.
Qed.

Lemma batch_contacts_come_from_searches_witness :
  ∃ c before after people p,
    c ∈ dict_values (companies (tracker tracked)) ∧
    trace (snd (handle_call_tool demo "enrich-contacts" (Some sequence_arguments) tracked)) =
      trace tracked ++ before ++ SearchPeople (Company.name c) seniority :: after ∧
    people_response demo (trace tracked ++ before) (Company.name c) seniority = Return people ∧
    p ∈ people ∧
    dict_get "name" p = Some "Bob" ∧
    dict_get "title" p = Some "CTO" ∧
    dict_get "email" p = Some "info@example.org" ∧
    dict_get "id" p = Some "p2" ∧
    "Bolt" = Company.name c.
Proof.
  apply (batch_contacts_come_from_searches demo sequence_arguments "seq-7" tracked
           (Contact.mk "Bob" "CTO" "Bolt" "info@example.org" "p2")); [reflexivity|].
  vm_compute. apply elem_of_cons. right. apply elem_of_cons. by left.
Defined.

(** ** Start-up: [EventTracker.__init__] and [load_data] *)

Lemma dict_set_absent {V} (k : string) (v : V) (d : dict V) :
  k ∉ dict_keys d → dict_set k v d = d ++ [(k, v)].
Proof.
  unfold dict_keys. induction d as [|[k' v'] d IH]; [done|].
  change (map fst ((k', v') :: d)) with (k' :: map fst d).
  intros Hk. simpl. rewrite decide_False.
  - rewrite IH; [done|]. intros Hin. apply Hk, elem_of_cons. by right.
  - intros ->. apply Hk, elem_of_cons. by left.
Qed.

(** A comprehension over items with distinct keys, none of which fails, is
    the item-wise image. *)
Lemma comprehension_map {A B} (build : kwargs → outcome A) (f : B → kwargs) (g : B → A)
    (items : dict B) (acc : dict A) :
  (∀ b, build (f b) = Return (g b)) →
  NoDup (dict_keys acc ++ dict_keys items) →
  comprehension build (map (λ kv, (fst kv, f (snd kv))) items) acc =
  Return (acc ++ map (λ kv, (fst kv, g (snd kv))) items).
Proof.
  intros Hbuild. revert acc. induction items as [|[k b] items IH]; intros acc Hnd.
  - simpl. by rewrite app_nil_r.
  - simpl. rewrite Hbuild.
    change (dict_keys ((k, b) :: items)) with (k :: dict_keys items) in Hnd.
    apply NoDup_app in Hnd as (Hacc & Hdisj & Hitems).
    apply NoDup_cons in Hitems as (Hk & Hitems).
    rewrite dict_set_absent, IH.
    + by rewrite <- app_assoc.
    + unfold dict_keys. rewrite map_app. simpl. apply NoDup_app. split; [|split].
      * apply NoDup_app. split; [done|]. split; [|apply NoDup_singleton].
        intros x Hx [->|[]%elem_of_nil]%elem_of_cons.
        apply (Hdisj _ Hx), elem_of_cons. by left.
      * intros x [Hx|[->|[]%elem_of_nil]%elem_of_cons]%elem_of_app; [|done].
        intros Hin. apply (Hdisj _ Hx), elem_of_cons. by right.
      * done.
    + intros Hin. apply (Hdisj _ Hin), elem_of_cons. by left.
Qed.

Lemma Company_init_kwargs c : Company_init (company_kwargs c) = Return (reloaded_company c).
Proof. reflexivity. Qed.

Lemma Contact_init_kwargs c : Contact_init (contact_kwargs c) = Return c.
Proof. by destruct c. Qed.

(** The text [save_data] writes is the JSON text of [snapshot_of]. *)
Lemma json_dumps_snapshot t : json_dumps t = json_snapshot (snapshot_of t).
Proof.
  unfold json_dumps, json_snapshot, snapshot_of, json_records. simpl.
  rewrite !map_map. by destruct (last_check t).
Qed.

Lemma pairs_unchanged {A B} (l : list (A * B)) : map (λ kv, (fst kv, snd kv)) l = l.
Proof. induction l as [|[a b] l IH]; simpl; [done|]. by rewrite IH. Qed.

(** Start-up from a file whose text parses. *)
Lemma EventTracker_init_parsed json_loads s text data :
  storage s = Some text →
  json_loads text = Return data →
  EventTracker_init json_loads s =
  match comprehension Company_init (items_or_empty (snap_companies data)) [] with
  | Raise e => (Raise e, set_tracker empty_tracker s)
  | Return cs =>
      match comprehension Contact_init (items_or_empty (snap_contacts data)) [] with
      | Raise e => (Raise e, set_tracker (mk_tracker cs [] None) s)
      | Return ct =>
          (Return tt,
           set_tracker (mk_tracker cs ct
                          match snap_last_check data with
                          | Some (Some x) => Some (Str x)
                          | _ => None
                          end) s)
      end
  end.
Proof.
  intros Hfile Hloads.
  unfold EventTracker_init, bind at 1, modify_tracker at 1, load_data.
  destruct s as [t st nc tr]. simpl in Hfile. subst st. cbn [storage set_tracker].
  unfold bind at 1, lift at 1. rewrite Hloads.
  unfold bind at 1, lift at 1.
  destruct (comprehension Company_init _ []) as [cs|e]; [|done].
  unfold bind at 1, modify_tracker at 1.
  unfold bind at 1, lift at 1.
  destruct (comprehension Contact_init _ []) as [ct|e]; [|done].
  unfold bind at 1, modify_tracker at 1, modify_tracker. done.
Qed.

Lemma save_data_succeeds w s :
  write_fault w (trace s) = NoFault →
  save_data w s =
  (Return tt, mk_env (tracker s) (Some (json_dumps (tracker s))) (new_contacts s)
                     (trace s ++ [WriteText (json_dumps (tracker s))])).
Proof.
  intros Hw. unfold save_data, bind, get_tracker, write_text. by rewrite Hw.
Qed.

(** X14.  Save, restart, load: when the write succeeds and [json.loads]
    reads the written text back as the object that was serialised, the
    tracker built at start-up has the same companies and contacts under the
    same keys in the same order, and the same [last_check], except that every
    timestamp is now the string that was written for it ([load_data] does not
    turn them back into datetimes). *)
Theorem snapshot_is_read_back json_loads w s :
  write_fault w (trace s) = NoFault →
  NoDup (dict_keys (companies (tracker s))) →
  NoDup (dict_keys (contacts (tracker s))) →
  json_loads (json_dumps (tracker s)) = Return (snapshot_of (tracker s)) →
  let saved := snd (save_data w s) in
  json_dumps (tracker s) = json_snapshot (snapshot_of (tracker s)) ∧
  storage saved = Some (json_dumps (tracker s)) ∧
  fst (EventTracker_init json_loads saved) = Return tt ∧
  tracker (snd (EventTracker_init json_loads saved)) = reloaded (tracker s).
Proof.
  intros Hw Hcs Hct Hloads. cbv zeta.
  split; [apply json_dumps_snapshot|].
  rewrite (save_data_succeeds _ _ Hw). cbn [snd storage].
  split; [done|].
  erewrite !EventTracker_init_parsed; [|reflexivity|exact Hloads].
  cbn [snapshot_of snap_companies snap_contacts snap_last_check items_or_empty].
  rewrite (comprehension_map Company_init company_kwargs reloaded_company)
    by (done || apply Company_init_kwargs).
  rewrite (comprehension_map Contact_init contact_kwargs (λ c, c))
    by (done || apply Contact_init_kwargs).
  cbn [fst snd tracker set_tracker app]. split; [done|]. unfold reloaded. f_equal.
  - apply pairs_unchanged.
  - by destruct (last_check (tracker s)).
Qed.

Lemma snapshot_is_read_back_witness :
  tracker (snd (EventTracker_init (reads_back (tracker scanned))
                  (snd (save_data demo scanned)))) =
  mk_tracker [("Acme", Company.mk "Acme" "https://acme.example" "sponsor"
                         (Str "2024-05-17 09:30:00.000001")
                         (Str "2024-05-17 09:30:00.000002"))]
             [] (Some (Str "2024-05-17 09:30:00.000003")).
Proof.
  destruct (snapshot_is_read_back (reads_back (tracker scanned)) demo scanned)
    as (_ & _ & _ & Hloaded).
  - reflexivity.
  - apply NoDup_singleton.
  - apply NoDup_nil_2.
  - unfold reads_back. by rewrite decide_True.
  - rewrite Hloaded. reflexivity.
Defined.

Lemma str_datetime_not_empty d : str_datetime d ≠ EmptyString.
Proof.
  unfold str_datetime. destruct (pad 4 (year d)); discriminate.
Qed.

(** What [reloaded] does to a tracker it has already been applied to. *)
Lemma reloaded_fixpoint t :
  json_dumps (reloaded t) = json_dumps t ∧
  reloaded (reloaded t) = reloaded t ∧
  truthy (last_check (reloaded t)) = truthy (last_check t).
Proof.
  split; [|split].
  - unfold json_dumps, reloaded. simpl. rewrite map_map. simpl.
    by destruct (last_check t).
  - unfold reloaded. simpl. rewrite map_map. simpl. by destruct (last_check t).
  - unfold reloaded. simpl. destruct (last_check t) as [[d|x]|]; simpl; [|done..].
    by rewrite bool_decide_eq_false_2 by apply str_datetime_not_empty.
Qed.

Lemma snapshot_of_reloaded t : snapshot_of (reloaded t) = snapshot_of t.
Proof.
  unfold snapshot_of, reloaded. simpl. rewrite map_map. simpl.
  by destruct (last_check t).
Qed.

Lemma reloaded_keys t :
  dict_keys (companies (reloaded t)) = dict_keys (companies t) ∧
  contacts (reloaded t) = contacts t.
Proof. unfold reloaded, dict_keys. simpl. by rewrite map_map. Qed.

(** Start-up from the file that holds the snapshot of [t]. *)
Lemma startup_from_snapshot json_loads s t :
  storage s = Some (json_dumps t) →
  NoDup (dict_keys (companies t)) →
  NoDup (dict_keys (contacts t)) →
  json_loads (json_dumps t) = Return (snapshot_of t) →
  EventTracker_init json_loads s = (Return tt, set_tracker (reloaded t) s).
Proof.
  intros Hfile Hcs Hct Hloads.
  rewrite (EventTracker_init_parsed json_loads s _ _ Hfile Hloads).
  cbn [snapshot_of snap_companies snap_contacts snap_last_check items_or_empty].
  rewrite (comprehension_map Company_init company_kwargs reloaded_company)
    by (done || apply Company_init_kwargs).
  rewrite (comprehension_map Contact_init contact_kwargs (λ c, c))
    by (done || apply Contact_init_kwargs).
  cbn [app]. do 2 f_equal. unfold reloaded. f_equal.
  - apply pairs_unchanged.
  - by destruct (last_check t).
Qed.

(** X15.  A reload is stable.  Save, restart and load once (as in the
    round trip above, with its hypotheses); then save, restart and load a
    second time: the second save writes exactly the text the first one wrote,
    the second start-up succeeds and builds the same tracker as the first,
    and [last_check] is true after the first reload if and only if it was
    true before it. *)
Theorem reload_is_stable json_loads w s :
  (∀ h, write_fault w h = NoFault) →
  NoDup (dict_keys (companies (tracker s))) →
  NoDup (dict_keys (contacts (tracker s))) →
  json_loads (json_dumps (tracker s)) = Return (snapshot_of (tracker s)) →
  let first := snd (EventTracker_init json_loads (snd (save_data w s))) in
  let second := snd (EventTracker_init json_loads (snd (save_data w first))) in
  storage (snd (save_data w first)) = storage (snd (save_data w s)) ∧
  fst (EventTracker_init json_loads (snd (save_data w first))) = Return tt ∧
  tracker second = tracker first ∧
  truthy (last_check (tracker first)) = truthy (last_check (tracker s)).
Proof.
  intros Hw Hcs Hct Hloads. cbv zeta.
  destruct (reloaded_fixpoint (tracker s)) as (Htext & Hagain & Htruthy).
  destruct (reloaded_keys (tracker s)) as (Hkeys & Hcontacts).
  rewrite (save_data_succeeds w s (Hw _)).
  cbn [snd].
  erewrite (startup_from_snapshot json_loads _ (tracker s)); [|reflexivity|done..].
  unfold set_tracker. cbn [snd fst tracker storage new_contacts trace].
  rewrite (save_data_succeeds w _ (Hw _)).
  cbn [snd fst tracker storage new_contacts trace]. rewrite Htext.
  split; [done|].
  erewrite (startup_from_snapshot json_loads _ (reloaded (tracker s))).
  - unfold set_tracker. cbn [fst snd tracker]. by rewrite Hagain.
  - cbn [storage]. by rewrite Htext.
  - by rewrite Hkeys.
  - by rewrite Hcontacts.
  - by rewrite Htext, snapshot_of_reloaded.
Qed.

Lemma reload_is_stable_witness :
  let first := snd (EventTracker_init (reads_back (tracker scanned))
                      (snd (save_data demo scanned))) in
  let second := snd (EventTracker_init (reads_back (tracker scanned))
                       (snd (save_data demo first))) in
  storage (snd (save_data demo first)) = storage (snd (save_data demo scanned)) ∧
  fst (EventTracker_init (reads_back (tracker scanned)) (snd (save_data demo first))) =
    Return tt ∧
  tracker second = tracker first ∧
  truthy (last_check (tracker first)) = truthy (last_check (tracker scanned)).
Proof.
  apply (reload_is_stable (reads_back (tracker scanned)) demo scanned).
  - intros h. reflexivity.
  - apply NoDup_singleton.
  - apply NoDup_nil_2.
  - unfold reads_back. by rewrite decide_True.
Defined.

Lemma refused_keyword_is_type_error cls fields keys e :
  refused_keyword cls fields keys = Some e → ∃ msg, e = TypeError msg.
Proof.
  induction keys as [|k keys IH]; simpl; [done|].
  repeat case_decide; [intros [= <-]; eauto|done|intros [= <-]; eauto].
Qed.

Lemma refused_keyword_unexpected cls fields keys k :
  k ∈ keys → k ∉ fields → is_Some (refused_keyword cls fields keys).
Proof.
  induction keys as [|k' keys IH]; [by intros ?%elem_of_nil|].
  intros [->|Hin]%elem_of_cons Hk; simpl; repeat case_decide; eauto; done.
Qed.

(** A record with an unknown key, or without one of the fields, is refused
    with a [TypeError]. *)
Lemma bind_keywords_refuses cls fields v :
  (∃ f, f ∈ fields ∧ dict_get f v = None) ∨ (∃ k, k ∈ dict_keys v ∧ k ∉ fields) →
  ∃ msg, bind_keywords cls fields v = Raise (TypeError msg).
Proof.
  intros Hbad. unfold bind_keywords.
  destruct (refused_keyword cls fields (dict_keys v)) as [e|] eqn:Hr.
  - destruct (refused_keyword_is_type_error _ _ _ _ Hr) as [msg ->]. eauto.
  - destruct Hbad as [(f & Hf & Hget)|(k & Hk & Hnot)].
    + assert (f ∈ missing_fields fields v) as Hm.
      { apply list_elem_of_filter. split; [|done].
        apply dict_in_false in Hget. by rewrite Hget. }
      destruct (missing_fields fields v); [by apply elem_of_nil in Hm|].
      unfold missing_error. eauto.
    + destruct (refused_keyword_unexpected cls fields _ _ Hk Hnot) as [e He]. congruence.
Qed.

Lemma comprehension_refuses {A} (build : kwargs → outcome A) items acc k v :
  (∀ v e, build v = Raise e → ∃ msg, e = TypeError msg) →
  (k, v) ∈ items → (∃ msg, build v = Raise (TypeError msg)) →
  ∃ msg, comprehension build items acc = Raise (TypeError msg).
Proof.
  intros Hkind Hin Hbad. revert acc.
  induction items as [|[k' v'] items IH]; intros acc; [by apply elem_of_nil in Hin|].
  simpl. destruct (build v') as [a|e] eqn:Hb.
  - apply elem_of_cons in Hin as [[= -> ->]|Hin]; [|by apply IH].
    destruct Hbad as [msg Hmsg]. congruence.
  - destruct (Hkind _ _ Hb) as [msg ->]. eauto.
Qed.

Lemma Company_init_raises v e : Company_init v = Raise e → ∃ msg, e = TypeError msg.
Proof.
  unfold Company_init, bind_keywords.
  destruct (refused_keyword _ _ _) as [e'|] eqn:Hr.
  - intros [= <-]. by eapply refused_keyword_is_type_error.
  - destruct (missing_fields _ _); [done|]. intros [= <-]. unfold missing_error. eauto.
Qed.

(** X16.  Start-up refuses a snapshot in which some company record lacks one
    of the five fields or carries a key that is not a field: the constructor
    raises [TypeError] and nothing has been loaded, neither the companies read
    before the offending record nor the contacts. *)
Theorem malformed_company_record_stops_startup json_loads s text data k v :
  storage s = Some text →
  json_loads text = Return data →
  (k, v) ∈ items_or_empty (snap_companies data) →
  (∃ f, f ∈ company_fields ∧ dict_get f v = None) ∨
  (∃ key, key ∈ dict_keys v ∧ key ∉ company_fields) →
  ∃ msg, EventTracker_init json_loads s = (Raise (TypeError msg), set_tracker empty_tracker s).
Proof.
  intros Hfile Hloads Hin Hbad.
  destruct (comprehension_refuses Company_init (items_or_empty (snap_companies data)) [] k v)
    as [msg Hc]; [apply Company_init_raises|done| |].
  { unfold Company_init.
    destruct (bind_keywords_refuses "Company" company_fields v Hbad) as [msg ->]. eauto. }
  exists msg. by rewrite (EventTracker_init_parsed json_loads _ _ _ Hfile Hloads), Hc.
Qed.

Lemma malformed_company_record_stops_startup_witness :
  ∃ msg,
    EventTracker_init
      (λ _, Return (mk_snapshot
                      (Some [("Acme", company_kwargs acme);
                             ("Bolt", [("name", "Bolt"); ("website", "https://bolt.example")])])
                      (Some []) (Some None)))
      tracked =
    (Raise (TypeError msg), set_tracker empty_tracker tracked).
Proof.
  eapply malformed_company_record_stops_startup
    with (text := "{}") (k := "Bolt")
         (v := [("name", "Bolt"); ("website", "https://bolt.example")]).
  - reflexivity.
  - reflexivity.
  - apply elem_of_cons. right. apply elem_of_cons. by left.
  - left. exists "type". split; [|reflexivity].
    unfold company_fields. rewrite !elem_of_cons. tauto.
Defined.

(** ** The scan report and the snapshot write *)

(** X17.  A scan of a page whose elements are all complete, with a write
    that succeeds, reports "Found N companies: ..." where N is the number of
    sponsor and attendee elements on the page and the names are theirs in
    page order: an element is counted and named whether or not its company
    was already tracked or appears twice.  [last_check] becomes the clock
    reading taken after extraction. *)
Theorem scan_reports_every_element w args url s soup :
  dict_get "url" args = Some url →
  page_response w (trace s) url = Return soup →
  Forall complete (sponsors soup) →
  Forall complete (attendees soup) →
  (∀ h, write_fault w h = NoFault) →
  let r := handle_call_tool w "scan-event-website" (Some args) s in
  ∃ names now,
    map Some names = map el_name (sponsors soup ++ attendees soup) ∧
    fst r = Return [mk_text ("Found " +:+
                             pretty (length (sponsors soup) + length (attendees soup)) +:+
                             " companies: " +:+ String.concat ", " names)] ∧
    last_check (tracker (snd r)) = Some (Dt now).
Proof.
  intros Hurl Hpage Hs Ha Hw. cbv zeta.
  destruct (extract_companies_complete w url s soup Hpage Hs Ha)
    as (cs & cs' & s1 & He & Hf & Hf' & _).
  rewrite handle_scan, (scan_event_website_spec _ _ _ _ Hurl), He. cbv zeta. rewrite Hw.
  exists (map Company.name (cs ++ cs')), (clock w (trace s1)). simpl.
  split; [|split; [|done]].
  - rewrite !map_app. f_equal.
    + clear -Hf. induction Hf as [|el c els cs (Hn & _ & _) _ IH]; simpl; [done|].
      by rewrite Hn, IH.
    + clear -Hf'. induction Hf' as [|el c els cs (Hn & _ & _) _ IH]; simpl; [done|].
      by rewrite Hn, IH.
  - by rewrite length_app, (Forall2_length _ _ _ Hf), (Forall2_length _ _ _ Hf').
Qed.

Lemma scan_reports_every_element_witness :
  ∃ names now,
    map Some names = [Some "Acme"] ∧
    fst (handle_call_tool demo "scan-event-website" (Some scan_arguments) tracked) =
      Return [mk_text ("Found " +:+ pretty (1 + 0)%nat +:+ " companies: " +:+
                       String.concat ", " names)] ∧
    last_check (tracker (snd
      (handle_call_tool demo "scan-event-website" (Some scan_arguments) tracked))) =
      Some (Dt now).
Proof.
  apply (scan_reports_every_element demo scan_arguments "https://event.example" tracked
           (mk_page [listing "Acme" "https://acme.example"] [])).
  - reflexivity.
  - reflexivity.
  - repeat constructor; simpl; eauto.
  - constructor.
  - intros h. reflexivity.
Defined.

Lemma run_found_events_same_search w w' cs h :
  people_response w' = people_response w →
  run_found w' h cs = run_found w h cs ∧ run_events w' h cs = run_events w h cs.
Proof.
  intros Hsame. revert h. induction cs as [|c cs IH]; intros h; [done|].
  assert (found w' h c = found w h c) as Hf by (unfold found; by rewrite Hsame).
  assert (visit_events w' h c = visit_events w h c) as Hv
    by (unfold visit_events, failure; by rewrite Hsame).
  change (run_found w' h (c :: cs))
    with (found w' h c ++ run_found w' (h ++ visit_events w' h c) cs).
  change (run_events w' h (c :: cs))
    with (visit_events w' h c ++ run_events w' (h ++ visit_events w' h c) cs).
  rewrite Hf, Hv. by destruct (IH (h ++ visit_events w h c)) as [-> ->].
Qed.

(** X18.  The tracker in memory after a tool call does not depend on the
    fate of the snapshot write: a write that fails makes the call raise, but
    the merge it has done in memory is not undone. *)
Theorem failed_write_is_not_rolled_back w fault name arguments s :
  let w' := mk_world (page_response w) (clock w) (people_response w)
                     (sequence_response w) fault in
  tracker (snd (handle_call_tool w' name arguments s)) =
  tracker (snd (handle_call_tool w name arguments s)).
Proof.
  cbv zeta. unfold handle_call_tool.
  destruct (decide (name = "scan-event-website")) as [Hscan|Hscan].
  { destruct (dict_get "url" (arguments_dict arguments)) as [url|] eqn:Hurl.
    - destruct arguments as [args|]; [|discriminate]. simpl in Hurl.
      rewrite !(scan_event_website_spec _ _ _ _ Hurl).
      change (extract_companies (mk_world (page_response w) (clock w) (people_response w)
                                          (sequence_response w) fault) url s)
        with (extract_companies w url s).
      destruct (extract_companies w url s) as [[observed|err] s1]; [|done].
      cbv zeta. simpl clock. simpl write_fault.
      destruct (fault (trace s1 ++ [DatetimeNow]));
        by destruct (write_fault w (trace s1 ++ [DatetimeNow])).
    - unfold scan_event_website. by rewrite (invalid_arguments _ _ Hurl). }
  destruct (decide (name = "enrich-contacts")) as [Henrich|Henrich].
  { destruct (dict_get "sequence_id" (arguments_dict arguments)) as [sid|] eqn:Hsid.
    - destruct arguments as [args|]; [|discriminate]. simpl in Hsid.
      rewrite !(enrich_contacts_spec _ _ _ _ Hsid).
      destruct (run_found_events_same_search w
                  (mk_world (page_response w) (clock w) (people_response w)
                            (sequence_response w) fault)
                  (dict_values (companies (tracker s))) (trace s) eq_refl) as [-> ->].
      simpl write_fault.
      match goal with |- context [fault ?h] => destruct (fault h) end;
        match goal with |- context [write_fault w ?h] => by destruct (write_fault w h) end.
    - unfold enrich_contacts. by rewrite (invalid_arguments _ _ Hsid). }
  destruct (decide (name = "get-changes")) as [Hchanges|Hchanges]; [|done].
  rewrite !get_changes_unbound. by destruct (truthy _).
Qed.
